(** * Shallow embedding of the ftb Markdown table formatter (src/src/lib.rs)

    Text is modelled as a list of Unicode scalar values ([char := N]).
    The display width of a character comes from the unicode-width crate;
    the development is parametric in it ([char_width]), and the width of a
    string is the sum of the widths of its characters. *)

From Stdlib Require Import String Ascii.
From Stdlib Require Import List NArith Arith Lia Bool.
Import ListNotations.
Open Scope string_scope.
Open Scope nat_scope.
Open Scope list_scope.

(** ** Characters and the [str] methods the code uses *)

Abbreviation char := N (only parsing).
Abbreviation str := (list char) (only parsing).

Definition PIPE : char := 124%N.
Definition SPACE : char := 32%N.
Definition DASH : char := 45%N.
Definition LF : char := 10%N.
Definition CR : char := 13%N.
Definition BACKTICK : char := 96%N.

(** [char::is_whitespace]: the Unicode White_Space property. *)
Definition is_whitespace (c : char) : bool :=
  ((9 <=? c) && (c <=? 13))%N || (c =? 32)%N || (c =? 133)%N || (c =? 160)%N
  || (c =? 5760)%N || ((8192 <=? c) && (c <=? 8202))%N || (c =? 8232)%N
  || (c =? 8233)%N || (c =? 8239)%N || (c =? 8287)%N || (c =? 12288)%N.

Fixpoint trim_start (s : str) : str :=
  match s with
  | [] => []
  | c :: r => if is_whitespace c then trim_start r else s
  end.

Definition trim_end (s : str) : str := rev (trim_start (rev s)).

(** [str::trim] *)
Definition trim (s : str) : str := trim_end (trim_start s).

Definition is_empty (s : str) : bool :=
  match s with [] => true | _ => false end.

(** [str::contains(c)] for a character *)
Definition contains (c : char) (s : str) : bool := existsb (N.eqb c) s.

(** [str::starts_with(p)] *)
Fixpoint starts_with (p s : str) : bool :=
  match p, s with
  | [], _ => true
  | a :: p', b :: s' => (a =? b)%N && starts_with p' s'
  | _ :: _, [] => false
  end.

(** [str::ends_with(c)] for a character *)
Definition ends_with (c : char) (s : str) : bool :=
  match rev s with [] => false | d :: _ => (d =? c)%N end.

(** [str::split(c)]: [n] separators give [n + 1] pieces. *)
Fixpoint split_go (sep : char) (acc : str) (s : str) : list str :=
  match s with
  | [] => [rev acc]
  | c :: r => if (c =? sep)%N then rev acc :: split_go sep [] r
              else split_go sep (c :: acc) r
  end.

Definition split (sep : char) (s : str) : list str := split_go sep [] s.

(** [str::lines]: split after each ['\n']; a line ended by ['\n'] loses it
    and then one trailing ['\r']; a final line without ['\n'] is kept as
    is; an empty final piece is not a line. *)
Definition strip_cr (l : str) : str :=
  match rev l with
  | c :: r => if (c =? CR)%N then rev r else l
  | [] => []
  end.

Fixpoint lines_go (acc : str) (s : str) : list str :=
  match s with
  | [] => match acc with [] => [] | _ => [rev acc] end
  | c :: r => if (c =? LF)%N then strip_cr (rev acc) :: lines_go [] r
              else lines_go (c :: acc) r
  end.

Definition lines (s : str) : list str := lines_go [] s.

(** [<[&str]>::join(sep)] *)
Fixpoint join (sep : str) (l : list str) : str :=
  match l with
  | [] => []
  | [x] => x
  | x :: r => x ++ sep ++ join sep r
  end.

(** [Iterator::skip_while] and [Iterator::take_while] on a list. *)
Fixpoint skip_while {A} (p : A -> bool) (l : list A) : list A :=
  match l with
  | [] => []
  | x :: r => if p x then skip_while p r else l
  end.

Fixpoint take_while {A} (p : A -> bool) (l : list A) : list A :=
  match l with
  | [] => []
  | x :: r => if p x then x :: take_while p r else []
  end.

(** [v[i] = x] on a [Vec] for an index in range. *)
Fixpoint set_nth {A} (i : nat) (x : A) (l : list A) : list A :=
  match l, i with
  | [], _ => []
  | _ :: r, O => x :: r
  | y :: r, S i' => y :: set_nth i' x r
  end.

(** ASCII literals, for concrete inputs. *)
Definition lit (s : string) : str :=
  map (fun a => N.of_nat (nat_of_ascii a)) (list_ascii_of_string s).

(** A text made of the given lines joined by ['\n']. *)
Definition text (ls : list string) : str := join [LF] (map lit ls).

(** ** Errors and outcomes *)

Inductive TableError :=
| MissingSeparator
| TableTooLarge (rows cols max_rows max_cols : N)
| InvalidStructure (msg : string)
| EmptyInput.

(** A call returns [Ok] or [Err] (Rust's [Result]), or panics. *)
Inductive Outcome (A : Type) :=
| Ok (a : A)
| Err (e : TableError)
| Panic.
Arguments Ok {A} a.
Arguments Err {A} e.
Arguments Panic {A}.

(** [struct TableFormatter] *)
Record TableFormatter := mkFormatter {
  cells : list (list str);
  column_widths : list nat
}.

(** [TableFormatter::new] *)
Definition new : TableFormatter := mkFormatter [] [].

Definition MAX_ROWS : N := 100000.
Definition MAX_COLS : N := 1000.
Definition MAX_CELLS : N := 1000000.

(** [usize] multiplication wraps modulo 2^64 (release build). *)
Definition usize_mul (a b : N) : N := N.modulo (a * b) (2 ^ 64).

Section Formatter.

Variable char_width : char -> nat.

(** [UnicodeWidthStr::width] *)
Definition width (s : str) : nat := fold_right (fun c n => char_width c + n) 0 s.

(** One pass of the inner loop of [get_column_widths] over a row, with
    [col_i] the index of the current cell. *)
Fixpoint widths_row (ws : list nat) (col_i : nat) (row : list str) : list nat :=
  match row with
  | [] => ws
  | cell :: rest =>
      let cell_width := width cell in
      let ws' :=
        if length ws <=? col_i then ws ++ [cell_width]
        else if nth col_i ws 0 <? cell_width then set_nth col_i cell_width ws
        else ws in
      widths_row ws' (S col_i) rest
  end.

Definition widths_of (rows : list (list str)) : list nat :=
  fold_left (fun ws row => widths_row ws 0 row) rows [].

(** [get_column_widths] *)
Definition get_column_widths (self : TableFormatter) : TableFormatter :=
  mkFormatter (cells self) (widths_of (cells self)).

(** [remove_empty_edge_columns] *)
Definition remove_empty_edge_columns (self : TableFormatter) : TableFormatter :=
  let self := get_column_widths self in
  match column_widths self with
  | [] => self
  | w0 :: _ =>
      let removed_leading := (w0 =? 0) in
      let self :=
        if removed_leading then
          mkFormatter (map (fun row => match row with [] => [] | _ :: r => r end)
                           (cells self)) (column_widths self)
        else self in
      let self := if removed_leading then get_column_widths self else self in
      match column_widths self with
      | [] => self
      | ws =>
          let n := length ws in
          if nth (n - 1) ws 0 =? 0 then
            get_column_widths
              (mkFormatter (map (fun row => if length row =? n then removelast row else row)
                                (cells self)) ws)
          else self
      end
  end.

(** The per-cell map of [import_table]: trim, and collapse an all-dash
    non-empty cell of row [row_i = 1] to ["-"]. *)
Definition parse_cell (row_i : nat) (cell : str) : str :=
  let trimmed := trim cell in
  if (row_i =? 1) && forallb (N.eqb DASH) trimmed && negb (is_empty trimmed)
  then [DASH] else trimmed.

(** The loop of [import_table]; [row_i] counts every line of [table_rows],
    also the skipped ones. *)
Fixpoint parse_rows (row_i : nat) (rows : list str) : list (list str) :=
  match rows with
  | [] => []
  | row :: rest =>
      if negb (contains PIPE row) then parse_rows (S row_i) rest
      else map (parse_cell row_i) (split PIPE row) :: parse_rows (S row_i) rest
  end.

(** [import_table] *)
Definition import_table (self : TableFormatter) (table : str)
  : TableFormatter * Outcome unit :=
  let table_rows := skip_while (fun line => negb (contains PIPE line)) (lines table) in
  match table_rows with
  | [] => (self, Err (InvalidStructure "No table rows found in input"))
  | _ =>
      let self := mkFormatter (cells self ++ parse_rows 0 table_rows) (column_widths self) in
      (remove_empty_edge_columns self, Ok tt)
  end.

(** [is_separator_row] *)
Definition is_separator_row (self : TableFormatter) (row_index : nat) : bool :=
  match nth_error (cells self) row_index with
  | None => false
  | Some [] => false
  | Some row => forallb (fun cell => negb (is_empty cell) && forallb (N.eqb DASH) cell) row
  end.

(** [add_missing_cell_columns] *)
Definition add_missing_cell_columns (self : TableFormatter) : TableFormatter :=
  let num_columns := length (column_widths self) in
  mkFormatter (map (fun row => row ++ repeat [] (num_columns - length row)) (cells self))
              (column_widths self).

(** The padding of one cell; [col_i] out of range of [widths] panics
    ([self.column_widths[col_i]]), modelled by [None]. *)
Fixpoint pad_row (widths : list nat) (row_i col_i : nat) (row : list str)
  : option (list str) :=
  match row with
  | [] => Some []
  | cell :: rest =>
      match nth_error widths col_i with
      | None => None
      | Some target_width =>
          let current_width := width cell in
          let padding := target_width - current_width in
          let cell' :=
            if padding =? 0 then cell
            else if row_i =? 1 then cell ++ repeat DASH padding
            else cell ++ repeat SPACE padding in
          match pad_row widths row_i (S col_i) rest with
          | None => None
          | Some rest' => Some (cell' :: rest')
          end
      end
  end.

Fixpoint pad_rows (widths : list nat) (row_i : nat) (rows : list (list str))
  : option (list (list str)) :=
  match rows with
  | [] => Some []
  | row :: rest =>
      match pad_row widths row_i 0 row, pad_rows widths (S row_i) rest with
      | Some row', Some rest' => Some (row' :: rest')
      | _, _ => None
      end
  end.

(** [pad_cells_for_output]; [None] is a panic. *)
Definition pad_cells_for_output (self : TableFormatter) : option TableFormatter :=
  match pad_rows (column_widths self) 0 (cells self) with
  | None => None
  | Some cs => Some (mkFormatter cs (column_widths self))
  end.

(** Header and data rows: ["| " ^ join(" | ") ^ " |\n"]. *)
Definition render_row (row : list str) : str :=
  [PIPE; SPACE] ++ join [SPACE; PIPE; SPACE] row ++ [SPACE; PIPE; LF].

(** Separator row: ["|-" ^ join("-|-") ^ "-|\n"]. *)
Definition render_sep (row : list str) : str :=
  [PIPE; DASH] ++ join [DASH; PIPE; DASH] row ++ [DASH; PIPE; LF].

(** [render_output] *)
Definition render_output (self : TableFormatter) : str :=
  (match cells self with [] => [] | r0 :: _ => render_row r0 end)
  ++ (match cells self with _ :: r1 :: _ => render_sep r1 | _ => [] end)
  ++ concat (map render_row (skipn 2 (cells self))).

(** [format_table] *)
Definition format_table (self : TableFormatter) (table : str)
  : TableFormatter * Outcome str :=
  let self := mkFormatter [] [] in
  if is_empty (trim table) then (self, Err EmptyInput) else
  match import_table self table with
  | (self, Err e) => (self, Err e)
  | (self, Panic) => (self, Panic)
  | (self, Ok _) =>
      if length (cells self) <? 2 then (self, Err MissingSeparator) else
      let num_rows := N.of_nat (length (cells self)) in
      let num_cols := N.of_nat (length (column_widths self)) in
      let total_cells := usize_mul num_rows num_cols in
      if (MAX_ROWS <? num_rows)%N || (MAX_COLS <? num_cols)%N || (MAX_CELLS <? total_cells)%N
      then (self, Err (TableTooLarge num_rows num_cols MAX_ROWS MAX_COLS)) else
      if negb (is_separator_row self 1)
      then (self, Err (InvalidStructure "Row 2 is not a valid separator row")) else
      let self := add_missing_cell_columns (get_column_widths self) in
      match pad_cells_for_output self with
      | None => (self, Panic)
      | Some self => (self, Ok (render_output self))
      end
  end.

(** The candidate test of [format_document]. *)
Definition is_candidate (line : str) : bool :=
  starts_with [PIPE] (trim line)
  || (contains PIPE line && negb (starts_with [BACKTICK; BACKTICK; BACKTICK] (trim line))).

(** [try_format_table_at] with [rest = lines[start..]]; the outer [None] is a
    panic of [format_table]. *)
Definition try_format_table_at (self : TableFormatter) (rest : list str)
  : option (TableFormatter * option (nat * str)) :=
  let block := take_while (contains PIPE) rest in
  match block with
  | [] => Some (self, None)
  | _ =>
      let table_text := join [LF] block in
      match format_table self table_text with
      | (self, Ok formatted) => Some (self, Some (length block, formatted))
      | (self, Err _) => Some (self, None)
      | (_, Panic) => None
      end
  end.

(** The [while i < lines.len()] loop of [format_document], on the suffix
    [lines[i..]]; [fuel] bounds the iterations (each consumes a line). *)
Fixpoint scan (fuel : nat) (self : TableFormatter) (rest : list str) : option str :=
  match fuel with
  | O => Some []
  | S fuel =>
      match rest with
      | [] => Some []
      | line :: tl =>
          let verbatim self :=
            match scan fuel self tl with
            | None => None
            | Some out => Some (line ++ [LF] ++ out)
            end in
          if is_candidate line then
            match try_format_table_at self rest with
            | None => None
            | Some (self, Some (n, formatted)) =>
                match scan fuel self (skipn n rest) with
                | None => None
                | Some out => Some (formatted ++ out)
                end
            | Some (self, None) => verbatim self
            end
          else verbatim self
      end
  end.

(** [format_document]; [None] is a panic. *)
Definition format_document (self : TableFormatter) (document : str) : option str :=
  let ls := lines document in
  match scan (length ls) self ls with
  | None => None
  | Some output =>
      Some (if negb (ends_with LF document) && ends_with LF output
            then removelast output else output)
  end.

End Formatter.

(** A small table of display widths agreeing with unicode-width on the
    characters it covers: ASCII controls 0, combining diacritics 0, CJK
    ideographs and Hiragana 2, everything else 1. *)
Definition sample_width (c : char) : nat :=
  if (c <? 32)%N then 0
  else if ((768 <=? c) && (c <=? 879))%N then 0
  else if ((12352 <=? c) && (c <=? 12447))%N || ((19968 <=? c) && (c <=? 40959))%N then 2
  else 1.

(** The table of the README example. *)
Definition sample_table : str :=
  text ["| h1 | h2 | h3 |"; "|-|-|-|"; "| data1 | data2 | data3 |"; ""].

(** ** Auxiliary definitions for the proofs *)

(** [get_column_widths] as an element-wise maximum that extends the vector
    with the widths of the extra cells of a longer row. *)
Fixpoint merge_widths (cw : char -> nat) (ws : list nat) (row : list str) : list nat :=
  match row, ws with
  | [], _ => ws
  | c :: r, [] => width cw c :: merge_widths cw [] r
  | c :: r, w :: ws' => Nat.max w (width cw c) :: merge_widths cw ws' r
  end.

(** The cell in row [i], column [j], if there is one. *)
Definition cell_at (rows : list (list str)) (i j : nat) : option str :=
  match nth_error rows i with
  | Some row => nth_error row j
  | None => None
  end.

(** A cell as the parser leaves it: no ['|'] and no ['\n']. *)
Definition clean (c : str) : Prop := ~ In PIPE c /\ ~ In LF c.

(** The padding character of row [row_i]. *)
Definition pad_char (row_i : nat) : char := if row_i =? 1 then DASH else SPACE.

(** [pad_row] when every index is in range. *)
Fixpoint padded_row (cw : char -> nat) (widths : list nat) (ch : char) (col_i : nat)
    (row : list str) : list str :=
  match row with
  | [] => []
  | c :: r => (c ++ repeat ch (nth col_i widths 0 - width cw c))
              :: padded_row cw widths ch (S col_i) r
  end.

Fixpoint padded_rows (cw : char -> nat) (widths : list nat) (row_i : nat)
    (rows : list (list str)) : list (list str) :=
  match rows with
  | [] => []
  | row :: rest => padded_row cw widths (pad_char row_i) 0 row
                   :: padded_rows cw widths (S row_i) rest
  end.

(** The size check of [format_table] passes on [m] rows of [n] cells. *)
Definition size_ok (m n : nat) : Prop :=
  ((MAX_ROWS <? N.of_nat m) || (MAX_COLS <? N.of_nat n)
   || (MAX_CELLS <? usize_mul (N.of_nat m) (N.of_nat n)))%N = false.

(** The cells of a successful [format_table] just before rendering:
    at least two rows of [n >= 1] cells each, no cell holds ['|'] or
    ['\n'], the separator row is all dashes and the size check passes. *)
Definition renderable (rows : list (list str)) (n : nat) : Prop :=
  2 <= length rows /\ 1 <= n /\ Forall (fun r => length r = n) rows
  /\ Forall (Forall clean) rows
  /\ (forall r1, nth_error rows 1 = Some r1 -> Forall (Forall (fun x => x = DASH)) r1)
  /\ size_ok (length rows) n.

(** What [import_table] makes of rendered rows: cells trimmed, separator
    cells collapsed to ["-"]. *)
Definition normalize (rows : list (list str)) : list (list str) :=
  match rows with
  | r0 :: r1 :: rest => map trim r0 :: map (fun _ => [DASH]) r1 :: map (map trim) rest
  | _ => rows
  end.

(** The lines of a rendered row, without their ['\n']. *)
Definition row_line (row : list str) : str :=
  [PIPE; SPACE] ++ join [SPACE; PIPE; SPACE] row ++ [SPACE; PIPE].

Definition sep_line (row : list str) : str :=
  [PIPE; DASH] ++ join [DASH; PIPE; DASH] row ++ [DASH; PIPE].

(** Number of occurrences of a character. *)
Definition count_char (c : char) (s : str) : nat := length (filter (N.eqb c) s).

(** The lines of [render_output], without their ['\n']. *)
Definition render_lines (rows : list (list str)) : list str :=
  match rows with
  | r0 :: r1 :: rest => row_line r0 :: sep_line r1 :: map row_line rest
  | _ => []
  end.

(** Joining lines, each followed by ['\n']. *)
Definition unlines (ls : list str) : str := concat (map (fun l => l ++ [LF]) ls).

(** No ['\r'] immediately followed by ['\n']. *)
Fixpoint no_crlf (s : str) : bool :=
  match s with
  | [] => true
  | c :: r => negb ((c =? CR)%N && starts_with [LF] r) && no_crlf r
  end.

(** A text with a final ['\n'] added when it is not empty and lacks one. *)
Definition add_final_lf (s : str) : str :=
  if ends_with LF s || is_empty s then s else s ++ [LF].

(** ** Concrete runs *)

Example scenario1 :
  snd (format_table sample_width new sample_table)
  = Ok (text ["| h1    | h2    | h3    |"; "|-------|-------|-------|";
              "| data1 | data2 | data3 |"; ""]).
Proof. vm_compute. reflexivity. Qed.

Example scenario3 :
  snd (format_table sample_width new (lit "| header |")) = Err MissingSeparator.
Proof. vm_compute. reflexivity. Qed.

(** ** Lemmas on the string primitives *)

Lemma in_rev_l {A} (l : list A) (x : A) : In x (rev l) -> In x l.
Proof. apply in_rev. Qed.

Lemma in_rev_r {A} (l : list A) (x : A) : In x l -> In x (rev l).
Proof. apply in_rev. Qed.

Lemma trim_start_in (s : str) (x : char) :
  In x s -> is_whitespace x = true \/ In x (trim_start s).
Proof.
  induction s as [|c r IH]; simpl; [tauto|].
  intros [->|H].
  - destruct (is_whitespace x) eqn:E; [now left|right; now left].
  - destruct (is_whitespace c); [now apply IH|right; now right].
Qed.

Lemma trim_start_sub (s : str) (x : char) : In x (trim_start s) -> In x s.
Proof.
  induction s as [|c r IH]; simpl; [tauto|].
  destruct (is_whitespace c); [intro H; right; auto|tauto].
Qed.

Lemma trim_start_nil (s : str) :
  trim_start s = [] -> forall x, In x s -> is_whitespace x = true.
Proof.
  intros H x Hx. destruct (trim_start_in s x Hx) as [?|Hin]; [assumption|].
  rewrite H in Hin. contradiction.
Qed.

Lemma trim_sub (s : str) (x : char) : In x (trim s) -> In x s.
Proof.
  unfold trim, trim_end. intro H. apply trim_start_sub.
  apply in_rev_l, trim_start_sub, in_rev_l. exact H.
Qed.

Lemma trim_nil_whitespace (s : str) :
  trim s = [] -> forall x, In x s -> is_whitespace x = true.
Proof.
  unfold trim, trim_end. intros H x Hx.
  destruct (trim_start_in s x Hx) as [?|Hin]; [assumption|].
  assert (Hr : trim_start (rev (trim_start s)) = []).
  { destruct (trim_start (rev (trim_start s))) as [|a l] eqn:E; [reflexivity|].
    simpl in H. destruct (rev l); discriminate. }
  apply (trim_start_nil _ Hr). now apply in_rev_r.
Qed.

Lemma contains_In (c : char) (s : str) : contains c s = true <-> In c s.
Proof.
  unfold contains. rewrite existsb_exists. split.
  - intros (x & Hx & E). apply N.eqb_eq in E. now subst.
  - intro H. exists c. split; [assumption|apply N.eqb_refl].
Qed.

Lemma contains_pipe_trim_nonempty (s : str) :
  contains PIPE s = true -> trim s <> [].
Proof.
  intros H E. apply contains_In in H.
  pose proof (trim_nil_whitespace s E PIPE H) as W. discriminate W.
Qed.

Lemma starts_with_pipe_contains (line : str) :
  starts_with [PIPE] (trim line) = true -> contains PIPE line = true.
Proof.
  intro H. apply contains_In. apply trim_sub.
  destruct (trim line) as [|c r]; [discriminate|].
  cbn -[N.eqb] in H. rewrite andb_true_r in H. apply N.eqb_eq in H. subst. now left.
Qed.

Lemma skip_while_cons {A} (p : A -> bool) (l : list A) (a : A) (r : list A) :
  skip_while p l = a :: r -> In a l /\ p a = false.
Proof.
  induction l as [|x l IH]; simpl; [discriminate|].
  destruct (p x) eqn:E.
  - intro H. destruct (IH H). split; [now right|assumption].
  - intro H. inversion H; subst. split; [now left|assumption].
Qed.

Lemma skip_while_nil {A} (p : A -> bool) (l : list A) :
  Forall (fun x => p x = true) l -> skip_while p l = [].
Proof. induction 1 as [|x l Hx _ IH]; simpl; [reflexivity|now rewrite Hx]. Qed.

Lemma strip_cr_sub (l : str) (x : char) : In x (strip_cr l) -> In x l.
Proof.
  unfold strip_cr. destruct (rev l) as [|c r] eqn:E; [simpl; tauto|].
  destruct (c =? CR)%N; [|tauto].
  intro H. rewrite <- (rev_involutive l), E. simpl.
  apply in_or_app. now left.
Qed.

Lemma lines_go_sub (acc s : str) (l : str) (x : char) :
  In l (lines_go acc s) -> In x l -> In x acc \/ In x s.
Proof.
  revert acc. induction s as [|c r IH]; intros acc; simpl.
  - destruct acc as [|a acc]; simpl; [tauto|].
    intros [<-|[]] Hx. left. exact (in_rev_l (a :: acc) x Hx).
  - destruct (c =? LF)%N.
    + intros [<-|Hl] Hx.
      * left. apply strip_cr_sub in Hx. now apply in_rev_l in Hx.
      * destruct (IH [] Hl Hx) as [[]|?]. tauto.
    + intros Hl Hx. destruct (IH (c :: acc) Hl Hx) as [[<-|?]|?]; tauto.
Qed.

Lemma lines_sub (s l : str) (x : char) : In l (lines s) -> In x l -> In x s.
Proof. intros Hl Hx. now destruct (lines_go_sub [] s l x Hl Hx). Qed.

Lemma lines_no_lf_go (acc s : str) (l : str) :
  ~ In LF acc -> In l (lines_go acc s) -> ~ In LF l.
Proof.
  revert acc. induction s as [|c r IH]; intros acc Hacc; simpl.
  - destruct acc as [|a acc]; simpl; [tauto|].
    intros [<-|[]] Hx. apply Hacc. exact (in_rev_l (a :: acc) LF Hx).
  - destruct (c =? LF)%N eqn:E.
    + intros [<-|Hl].
      * intro Hx. apply strip_cr_sub, in_rev_l in Hx. contradiction.
      * exact (IH [] (fun H => H) Hl).
    + apply IH. intros [Hc|Hc]; [subst; discriminate|contradiction].
Qed.

Lemma lines_no_lf (s l : str) : In l (lines s) -> ~ In LF l.
Proof. apply lines_no_lf_go. tauto. Qed.

(** ** Lemmas on [import_table] and the size check *)

Lemma import_table_result (cw : char -> nat) (self : TableFormatter) (t : str) :
  snd (import_table cw self t) = Err (InvalidStructure "No table rows found in input")
  \/ (snd (import_table cw self t) = Ok tt /\
      exists l, In l (lines t) /\ contains PIPE l = true).
Proof.
  unfold import_table.
  destruct (skip_while _ (lines t)) as [|l r] eqn:E; [now left|right].
  split; [reflexivity|]. apply skip_while_cons in E. destruct E as [Hin Hp].
  exists l. split; [assumption|]. now destruct (contains PIPE l).
Qed.

Lemma import_table_no_rows (cw : char -> nat) (self : TableFormatter) (t : str) :
  Forall (fun l => contains PIPE l = false) (lines t) ->
  snd (import_table cw self t) = Err (InvalidStructure "No table rows found in input").
Proof.
  intro H. unfold import_table. rewrite skip_while_nil; [reflexivity|].
  eapply Forall_impl; [|exact H]. intros a Ha. simpl. now rewrite Ha.
Qed.

Lemma import_ok_trim (cw : char -> nat) (self st1 : TableFormatter) (t : str) (u : unit) :
  import_table cw self t = (st1, Ok u) -> is_empty (trim t) = false.
Proof.
  intro H. destruct (import_table_result cw self t) as [E|[_ (l & Hl & Hp)]].
  - rewrite H in E. discriminate.
  - apply contains_In in Hp. destruct (trim t) eqn:T; [|reflexivity].
    exfalso. eapply contains_pipe_trim_nonempty; [|exact T].
    apply contains_In. exact (lines_sub t l PIPE Hl Hp).
Qed.

Lemma two64 : (2 ^ 64 = 18446744073709551616)%N.
Proof. reflexivity. Qed.

Lemma size_check_iff (r c : N) :
  ((MAX_ROWS <? r) || (MAX_COLS <? c) || (MAX_CELLS <? usize_mul r c))%N = true
  <-> (MAX_ROWS < r \/ MAX_COLS < c \/ MAX_CELLS < r * c)%N.
Proof.
  unfold MAX_ROWS, MAX_COLS, MAX_CELLS, usize_mul. rewrite two64.
  destruct (N.ltb_spec 100000 r); destruct (N.ltb_spec 1000 c); simpl;
    try (split; [intros _; lia|reflexivity]).
  rewrite N.mod_small by nia.
  destruct (N.ltb_spec 1000000 (r * c)); split; intro; lia || discriminate.
Qed.

(** ** C9: the result of [format_table] does not depend on the instance *)

(** C9: the result of format_table depends only on its text argument: two
    instances with any prior histories (also failed calls) give the same
    result and end in the same state on the same input. *)
Theorem format_table_ignores_prior_state (cw : char -> nat)
    (st1 st2 : TableFormatter) (t : str) :
  format_table cw st1 t = format_table cw st2 t.
Proof. reflexivity. Qed.

(** ** C4: [EmptyInput] *)

(** C4 (the code diverges from the claim and from the documentation of
    EmptyInput, "empty or contains no table"): the input "abc" is non-empty
    after trimming and no line of it contains '|', yet format_table does
    not fail with EmptyInput; import_table makes it fail with
    InvalidStructure "No table rows found in input". *)
Lemma format_table_no_pipe_not_empty_input :
  trim (lit "abc") <> [] /\
  Forall (fun l => contains PIPE l = false) (lines (lit "abc")) /\
  snd (format_table sample_width new (lit "abc"))
  = Err (InvalidStructure "No table rows found in input") /\
  snd (format_table sample_width new (lit "abc")) <> Err EmptyInput.
Proof.
  vm_compute. split; [discriminate|]. split; [repeat constructor|].
  split; [reflexivity|discriminate].
Qed.

(** X15: format_table fails with EmptyInput exactly when the trimmed
    input is empty; a non-empty input none of whose lines contains '|'
    fails with InvalidStructure "No table rows found in input". *)
Theorem format_table_empty_input (cw : char -> nat) (st : TableFormatter) (t : str) :
  (snd (format_table cw st t) = Err EmptyInput <-> trim t = []) /\
  (trim t <> [] -> Forall (fun l => contains PIPE l = false) (lines t) ->
   snd (format_table cw st t) = Err (InvalidStructure "No table rows found in input")).
Proof.
  split.
  - unfold format_table. destruct (trim t) eqn:T; simpl; [split; reflexivity|].
    split; [|discriminate].
    destruct (import_table_result cw (mkFormatter [] []) t) as [E|[E _]];
      destruct (import_table cw (mkFormatter [] []) t) as [st1 o]; simpl in E; subst o.
    + discriminate.
    + repeat match goal with
             | |- context [if ?b then _ else _] => destruct b
             | |- context [match ?o with Some _ => _ | None => _ end] => destruct o
             end; simpl; discriminate.
  - intros T H. unfold format_table. destruct (trim t) eqn:E; [contradiction|simpl].
    pose proof (import_table_no_rows cw (mkFormatter [] []) t H) as I.
    destruct (import_table cw (mkFormatter [] []) t) as [st1 o]. simpl in I. now subst o.
Qed.

(** ** C5: [TableTooLarge] *)

(** C5: for an input that parses to at least 2 rows, format_table fails
    with TableTooLarge iff the row count exceeds 100000, the column count
    exceeds 1000 or their product exceeds 1000000; the error then carries
    the actual row and column counts and the two maxima. *)
Theorem format_table_too_large (cw : char -> nat) (st st1 : TableFormatter)
    (t : str) (u : unit) :
  import_table cw new t = (st1, Ok u) -> 2 <= length (cells st1) ->
  let rows := N.of_nat (length (cells st1)) in
  let cols := N.of_nat (length (column_widths st1)) in
  ((exists r c mr mc, snd (format_table cw st t) = Err (TableTooLarge r c mr mc))
   <-> (MAX_ROWS < rows \/ MAX_COLS < cols \/ MAX_CELLS < rows * cols)%N) /\
  ((MAX_ROWS < rows \/ MAX_COLS < cols \/ MAX_CELLS < rows * cols)%N ->
   snd (format_table cw st t) = Err (TableTooLarge rows cols MAX_ROWS MAX_COLS)).
Proof.
  intros I L rows cols.
  unfold format_table. pose proof (import_ok_trim _ _ _ _ _ I) as T.
  rewrite T. unfold new in I. rewrite I.
  replace (length (cells st1) <? 2) with false by (symmetry; apply Nat.ltb_ge; exact L).
  fold rows cols.
  destruct ((MAX_ROWS <? rows) || (MAX_COLS <? cols) || (MAX_CELLS <? usize_mul rows cols))%N
    eqn:C.
  - apply size_check_iff in C. split; [|reflexivity].
    split; [intros _; exact C|intros _; do 4 eexists; reflexivity].
  - assert (NC : ~ (MAX_ROWS < rows \/ MAX_COLS < cols \/ MAX_CELLS < rows * cols)%N).
    { intro H. apply size_check_iff in H. congruence. }
    split; [|intro H; contradiction].
    split; [|intro H; contradiction].
    intros (r & c & mr & mc & E). exfalso. revert E.
    repeat match goal with
           | |- context [if ?b then _ else _] => destruct b
           | |- context [match ?o with Some _ => _ | None => _ end] => destruct o
           end; simpl; discriminate.
Qed.

(** ** Column widths *)

Section Widths.

Variable cw : char -> nat.

Lemma width_app (a b : str) : width cw (a ++ b) = width cw a + width cw b.
Proof. induction a as [|c a IH]; simpl; [reflexivity|rewrite IH; lia]. Qed.

Lemma width_repeat (ch : char) (k : nat) : width cw (repeat ch k) = k * cw ch.
Proof. induction k as [|k IH]; simpl; [reflexivity|rewrite IH; lia]. Qed.

Lemma length_set_nth {A} (i : nat) (x : A) (l : list A) :
  length (set_nth i x l) = length l.
Proof.
  revert i. induction l as [|y l IH]; intros [|i]; simpl; auto.
Qed.

Lemma set_nth_split {A} (i : nat) (x d : A) (l : list A) :
  i < length l -> set_nth i x l = firstn i l ++ x :: skipn (S i) l.
Proof.
  revert i. induction l as [|y l IH]; intros [|i] H; simpl in *; try lia.
  - reflexivity.
  - rewrite (IH i) by lia. reflexivity.
Qed.

Lemma skipn_nth {A} (i : nat) (l : list A) (d : A) :
  i < length l -> skipn i l = nth i l d :: skipn (S i) l.
Proof.
  revert i. induction l as [|y l IH]; intros [|i] H; simpl in *; try lia.
  - reflexivity.
  - apply IH. lia.
Qed.

Lemma firstn_mid {A} (l1 l2 : list A) (x : A) (i : nat) :
  length l1 = i -> firstn (S i) (l1 ++ x :: l2) = l1 ++ [x].
Proof.
  intros <-. induction l1 as [|y l1 IH]; simpl; [reflexivity|].
  f_equal. exact IH.
Qed.

Lemma skipn_mid {A} (l1 l2 : list A) (x : A) (i : nat) :
  length l1 = i -> skipn (S i) (l1 ++ x :: l2) = l2.
Proof.
  intros <-. induction l1 as [|y l1 IH]; simpl; [reflexivity|exact IH].
Qed.

Lemma widths_row_merge (ws : list nat) (i : nat) (row : list str) :
  i <= length ws ->
  widths_row cw ws i row = firstn i ws ++ merge_widths cw (skipn i ws) row.
Proof.
  revert ws i. induction row as [|c r IH]; intros ws i H; simpl.
  - symmetry. apply firstn_skipn.
  - destruct (Nat.leb_spec (length ws) i) as [L|L].
    + assert (i = length ws) by lia. subst i.
      rewrite IH by (rewrite length_app; simpl; lia).
      rewrite firstn_all, skipn_all.
      rewrite firstn_all2 by (rewrite length_app; simpl; lia).
      rewrite skipn_all2 by (rewrite length_app; simpl; lia).
      simpl. rewrite <- app_assoc. reflexivity.
    + set (w := width cw c).
      assert (E : (if nth i ws 0 <? w then set_nth i w ws else ws)
                  = firstn i ws ++ Nat.max (nth i ws 0) w :: skipn (S i) ws).
      { destruct (Nat.ltb_spec (nth i ws 0) w).
        - rewrite (set_nth_split i w 0) by lia. f_equal. f_equal. lia.
        - rewrite Nat.max_l by lia.
          rewrite <- (skipn_nth i ws 0 L). symmetry. apply firstn_skipn. }
      rewrite E, IH by (rewrite length_app, length_firstn; simpl; lia).
      assert (Lf : length (firstn i ws) = i) by (rewrite length_firstn; lia).
      rewrite (firstn_mid _ _ _ _ Lf), (skipn_mid _ _ _ _ Lf).
      rewrite (skipn_nth i ws 0 L). cbn [merge_widths].
      rewrite <- app_assoc. reflexivity.
Qed.

Lemma widths_of_fold (rows : list (list str)) :
  widths_of cw rows = fold_left (merge_widths cw) rows [].
Proof.
  unfold widths_of. generalize (@nil nat) as ws.
  induction rows as [|r rows IH]; intro ws; simpl; [reflexivity|].
  rewrite IH. f_equal. rewrite widths_row_merge by lia. reflexivity.
Qed.

Lemma merge_length (ws : list nat) (row : list str) :
  length (merge_widths cw ws row) = Nat.max (length ws) (length row).
Proof.
  revert ws. induction row as [|c r IH]; intros [|w ws]; simpl; rewrite ?IH; simpl; lia.
Qed.

Lemma merge_nth (ws : list nat) (row : list str) (j : nat) :
  nth j (merge_widths cw ws row) 0 = Nat.max (nth j ws 0) (width cw (nth j row [])).
Proof.
  revert ws j. induction row as [|c r IH]; intros ws j.
  - simpl. destruct j; simpl; lia.
  - destruct ws as [|w ws]; destruct j as [|j]; simpl; try lia; rewrite IH; [|reflexivity].
    replace (nth j [] 0) with 0 by (destruct j; reflexivity). lia.
Qed.

Lemma fold_max_ge {A} (f : A -> nat) (l : list A) (a : nat) :
  a <= fold_left (fun acc x => Nat.max acc (f x)) l a
  /\ forall x, In x l -> f x <= fold_left (fun acc x => Nat.max acc (f x)) l a.
Proof.
  revert a. induction l as [|y l IH]; intros a; simpl; [split; [lia|tauto]|].
  destruct (IH (Nat.max a (f y))) as [H1 H2]. split; [lia|].
  intros x [<-|Hx]; [lia|auto].
Qed.

Lemma fold_max_attained {A} (f : A -> nat) (l : list A) (a : nat) :
  fold_left (fun acc x => Nat.max acc (f x)) l a = a
  \/ exists x, In x l /\ f x = fold_left (fun acc x => Nat.max acc (f x)) l a.
Proof.
  revert a. induction l as [|y l IH]; intros a; simpl; [now left|].
  destruct (IH (Nat.max a (f y))) as [E|(x & Hx & E)].
  - rewrite E. destruct (Nat.max_spec a (f y)) as [[_ M]|[_ M]]; rewrite M.
    + right. exists y. auto.
    + now left.
  - right. exists x. auto.
Qed.

Lemma widths_fold_length (rows : list (list str)) (ws : list nat) :
  length (fold_left (merge_widths cw) rows ws)
  = fold_left (fun acc r => Nat.max acc (length r)) rows (length ws).
Proof.
  revert ws. induction rows as [|r rows IH]; intro ws; simpl; [reflexivity|].
  rewrite IH, merge_length. reflexivity.
Qed.

Lemma widths_fold_nth (rows : list (list str)) (ws : list nat) (j : nat) :
  nth j (fold_left (merge_widths cw) rows ws) 0
  = fold_left (fun acc r => Nat.max acc (width cw (nth j r []))) rows (nth j ws 0).
Proof.
  revert ws. induction rows as [|r rows IH]; intro ws; simpl; [reflexivity|].
  rewrite IH, merge_nth. reflexivity.
Qed.

Lemma widths_of_length (rows : list (list str)) :
  length (widths_of cw rows) = fold_left (fun acc r => Nat.max acc (length r)) rows 0.
Proof. rewrite widths_of_fold, widths_fold_length. reflexivity. Qed.

Lemma widths_of_nth (rows : list (list str)) (j : nat) :
  nth j (widths_of cw rows) 0
  = fold_left (fun acc r => Nat.max acc (width cw (nth j r []))) rows 0.
Proof. rewrite widths_of_fold, widths_fold_nth. destruct j; reflexivity. Qed.

Lemma widths_of_row_le (rows : list (list str)) (row : list str) :
  In row rows -> length row <= length (widths_of cw rows).
Proof. intro H. rewrite widths_of_length. now apply fold_max_ge. Qed.

Lemma widths_of_cell_le (rows : list (list str)) (row : list str) (j : nat) :
  In row rows -> width cw (nth j row []) <= nth j (widths_of cw rows) 0.
Proof.
  intro H. rewrite widths_of_nth.
  exact (proj2 (fold_max_ge (fun r => width cw (nth j r [])) rows 0) row H).
Qed.

(** Two row lists with the same cells up to trailing empty cells have the
    same widths once they have the same longest row. *)
Lemma widths_of_ext (rows rows' : list (list str)) :
  length (widths_of cw rows) = length (widths_of cw rows') ->
  Forall2 (fun r r' => forall j, width cw (nth j r []) = width cw (nth j r' [])) rows rows' ->
  widths_of cw rows = widths_of cw rows'.
Proof.
  intros L F. apply nth_ext with (d := 0) (d' := 0); [exact L|].
  intros j _. clear L. rewrite !widths_of_nth. generalize 0.
  induction F as [|r r' rows rows' Hr _ IH]; intro a; simpl; [reflexivity|].
  rewrite Hr. apply IH.
Qed.

End Widths.

(** ** What [import_table] produces *)

Lemma split_go_pieces (sep : char) (acc s p : str) :
  ~ In sep acc -> In p (split_go sep acc s) ->
  ~ In sep p /\ forall x, In x p -> In x acc \/ In x s.
Proof.
  revert acc. induction s as [|c r IH]; intros acc Hacc; simpl.
  - intros [<-|[]]. split.
    + intro H. apply Hacc. now apply in_rev_l.
    + intros x Hx. left. now apply in_rev_l.
  - destruct (N.eqb_spec c sep) as [E|E].
    + intros [<-|Hp].
      * split; [intro H; apply Hacc; now apply in_rev_l|].
        intros x Hx. left. now apply in_rev_l.
      * destruct (IH [] (fun H => H) Hp) as [H1 H2]. split; [exact H1|].
        intros x Hx. destruct (H2 x Hx) as [[]|?]. tauto.
    + intro Hp. assert (Hacc' : ~ In sep (c :: acc)) by (intros [?|?]; auto).
      destruct (IH _ Hacc' Hp) as [H1 H2]. split; [exact H1|].
      intros x Hx. destruct (H2 x Hx) as [[<-|?]|?]; tauto.
Qed.

Lemma split_pieces (sep : char) (s p : str) :
  In p (split sep s) -> ~ In sep p /\ forall x, In x p -> In x s.
Proof.
  intro H. destruct (split_go_pieces sep [] s p (fun H => H) H) as [H1 H2].
  split; [exact H1|]. intros x Hx. destruct (H2 x Hx) as [[]|?]; assumption.
Qed.

Lemma parse_cell_clean (cw : char -> nat) (i : nat) (p : str) :
  clean p -> clean (parse_cell i p).
Proof.
  unfold parse_cell, clean. intros [H1 H2].
  destruct (_ && _ && _).
  - split; intros [E|[]]; discriminate.
  - split; intro H; [apply H1|apply H2]; eapply trim_sub; exact H.
Qed.

Lemma parse_rows_clean (cw : char -> nat) (i : nat) (rows : list str) :
  Forall (fun l => ~ In LF l) rows -> Forall (Forall clean) (parse_rows i rows).
Proof.
  intro H. revert i. induction H as [|l rows Hl _ IH]; intro i; simpl; [constructor|].
  destruct (contains PIPE l); simpl; [|apply IH].
  constructor; [|apply IH].
  apply Forall_forall. intros c Hc. apply in_map_iff in Hc as (p & <- & Hp).
  apply parse_cell_clean; [exact cw|].
  destruct (split_pieces PIPE l p Hp) as [H1 H2].
  split; [exact H1|]. intro HL. exact (Hl (H2 LF HL)).
Qed.

Lemma Forall_removelast {A} (P : A -> Prop) (l : list A) :
  Forall P l -> Forall P (removelast l).
Proof.
  induction 1 as [|x l Hx Hl IH]; simpl; [constructor|].
  destruct l; [constructor|]. constructor; assumption.
Qed.

Lemma remove_edges_Forall (cw : char -> nat) (P : str -> Prop) (self : TableFormatter) :
  Forall (Forall P) (cells self) ->
  Forall (Forall P) (cells (remove_empty_edge_columns cw self)).
Proof.
  intro H. unfold remove_empty_edge_columns, get_column_widths. simpl.
  assert (Ht : forall rows, Forall (Forall P) rows ->
            Forall (Forall P) (map (fun row => match row with [] => [] | _ :: r => r end) rows)).
  { intros rows Hr. apply Forall_map. eapply Forall_impl; [|exact Hr].
    intros [|a r] Ha; [constructor|]. now inversion Ha. }
  assert (Hl : forall n rows, Forall (Forall P) rows ->
            Forall (Forall P) (map (fun row => if length row =? n then removelast row else row) rows)).
  { intros n rows Hr. apply Forall_map. eapply Forall_impl; [|exact Hr].
    intros a Ha. destruct (_ =? _); [now apply Forall_removelast|exact Ha]. }
  destruct (widths_of cw (cells self)) as [|w0 ws0]; [exact H|].
  destruct (w0 =? 0); simpl.
  - destruct (widths_of cw _) as [|w1 ws1]; simpl; [now apply Ht|].
    destruct (_ =? 0); simpl; [apply Hl|]; now apply Ht.
  - destruct ws0 as [|w1 ws1]; simpl;
      (destruct (_ =? 0); simpl; [apply Hl|]); exact H.
Qed.

Lemma remove_edges_widths (cw : char -> nat) (self : TableFormatter) :
  column_widths (remove_empty_edge_columns cw self)
  = widths_of cw (cells (remove_empty_edge_columns cw self)).
Proof.
  unfold remove_empty_edge_columns, get_column_widths. cbn [cells column_widths].
  destruct (widths_of cw (cells self)) as [|w0 ws0] eqn:E0;
    [cbn [cells column_widths]; symmetry; exact E0|].
  destruct (w0 =? 0); cbn [cells column_widths].
  - set (rows := map _ (cells self)).
    destruct (widths_of cw rows) as [|w1 ws1] eqn:E1;
      [cbn [cells column_widths]; symmetry; exact E1|].
    destruct (_ =? 0); cbn [cells column_widths]; [reflexivity|now rewrite E1].
  - destruct (_ =? 0); cbn [cells column_widths]; [reflexivity|symmetry; exact E0].
Qed.

Lemma import_table_ok (cw : char -> nat) (t : str) (st1 : TableFormatter) (u : unit) :
  import_table cw new t = (st1, Ok u) ->
  Forall (Forall clean) (cells st1) /\ column_widths st1 = widths_of cw (cells st1).
Proof.
  unfold import_table. destruct (skip_while _ (lines t)) as [|l r] eqn:E; [discriminate|].
  intro H. inversion H as [[H1 H2]]. clear H. split; [|apply remove_edges_widths].
  assert (HP : Forall (Forall clean) (parse_rows 0 (l :: r))).
  { apply parse_rows_clean; [exact cw|].
    apply Forall_forall. intros x Hx HL.
    assert (Hs : forall y, In y (skip_while (fun line => negb (contains PIPE line)) (lines t)) ->
                           In y (lines t)).
    { clear. induction (lines t) as [|a l IH]; simpl; [tauto|].
      destruct (negb _); [intros y Hy; right; auto|tauto]. }
    rewrite E in Hs. exact (lines_no_lf t x (Hs x Hx) HL). }
  apply remove_edges_Forall. exact HP.
Qed.

(** ** Column-count normalisation and padding *)

Section Padding.

Variable cw : char -> nat.

Lemma pad_row_ok (W : list nat) (row_i col_i : nat) (row : list str) :
  col_i + length row <= length W ->
  pad_row cw W row_i col_i row = Some (padded_row cw W (pad_char row_i) col_i row).
Proof.
  revert col_i. induction row as [|c r IH]; intros col_i H; simpl in *; [reflexivity|].
  destruct (nth_error W col_i) as [w|] eqn:E.
  - rewrite IH by lia. rewrite (nth_error_nth W col_i 0 E).
    unfold pad_char. destruct (Nat.eqb_spec (w - width cw c) 0) as [Z|Z].
    + rewrite Z. simpl. rewrite app_nil_r. reflexivity.
    + destruct (row_i =? 1); reflexivity.
  - apply nth_error_None in E. lia.
Qed.

Lemma pad_rows_ok (W : list nat) (row_i : nat) (rows : list (list str)) :
  Forall (fun r => length r <= length W) rows ->
  pad_rows cw W row_i rows = Some (padded_rows cw W row_i rows).
Proof.
  intro H. revert row_i. induction H as [|r rows Hr _ IH]; intro row_i; simpl; [reflexivity|].
  rewrite pad_row_ok by lia. rewrite IH. reflexivity.
Qed.

Lemma length_padded_row (W : list nat) (ch : char) (col_i : nat) (row : list str) :
  length (padded_row cw W ch col_i row) = length row.
Proof. revert col_i. induction row; intros; simpl; auto. Qed.

Lemma length_padded_rows (W : list nat) (row_i : nat) (rows : list (list str)) :
  length (padded_rows cw W row_i rows) = length rows.
Proof. revert row_i. induction rows; intros; simpl; auto. Qed.

Lemma add_missing_cells (s : TableFormatter) :
  cells (add_missing_cell_columns (get_column_widths cw s))
  = map (fun row => row ++ repeat [] (length (widths_of cw (cells s)) - length row)) (cells s).
Proof. reflexivity. Qed.

Lemma add_missing_rect (s : TableFormatter) :
  Forall (fun r => length r = length (widths_of cw (cells s)))
         (cells (add_missing_cell_columns (get_column_widths cw s))).
Proof.
  rewrite add_missing_cells. apply Forall_map, Forall_forall. intros r Hr.
  rewrite length_app, repeat_length. pose proof (widths_of_row_le cw _ _ Hr). lia.
Qed.

Lemma pad_after_add_missing (s : TableFormatter) :
  let s2 := add_missing_cell_columns (get_column_widths cw s) in
  pad_cells_for_output cw s2
  = Some (mkFormatter (padded_rows cw (column_widths s2) 0 (cells s2)) (column_widths s2)).
Proof.
  intro s2. unfold pad_cells_for_output. rewrite pad_rows_ok; [reflexivity|].
  eapply Forall_impl; [|apply add_missing_rect]. simpl. intros r ->. lia.
Qed.

Lemma nth_app_repeat_nil (row : list str) (k j : nat) :
  nth j (row ++ repeat [] k) [] = nth j row [].
Proof.
  destruct (Nat.lt_ge_cases j (length row)).
  - apply app_nth1. exact H.
  - rewrite app_nth2 by exact H. rewrite (nth_overflow row) by exact H.
    destruct (Nat.lt_ge_cases (j - length row) k).
    + apply nth_repeat_lt. exact H0.
    + apply nth_overflow. rewrite repeat_length. exact H0.
Qed.

(** Adding the missing cells does not change the widths. *)
Lemma fold_max_const {A} (f : A -> nat) (l : list A) (n : nat) :
  Forall (fun x => f x = n) l -> l <> [] ->
  fold_left (fun acc x => Nat.max acc (f x)) l 0 = n.
Proof.
  intros H Hne. assert (G : forall a, a <= n ->
    fold_left (fun acc x => Nat.max acc (f x)) l a = match l with [] => a | _ => n end).
  { clear Hne. induction H as [|x l Hx _ IH]; intros a Ha; simpl; [reflexivity|].
    rewrite Hx, IH by lia. destruct l; lia. }
  rewrite G by lia. destruct l; [contradiction|reflexivity].
Qed.

Lemma add_missing_widths (s : TableFormatter) :
  widths_of cw (cells (add_missing_cell_columns (get_column_widths cw s)))
  = widths_of cw (cells s).
Proof.
  apply widths_of_ext.
  - pose proof (add_missing_rect s) as R.
    set (n := length (widths_of cw (cells s))) in *.
    rewrite (widths_of_length cw (cells (add_missing_cell_columns _))).
    destruct (cells s) as [|r0 rows0] eqn:E.
    + rewrite add_missing_cells, E. reflexivity.
    + rewrite (fold_max_const _ _ n R) by (rewrite add_missing_cells, E; discriminate).
      lia.
  - rewrite add_missing_cells. generalize (length (widths_of cw (cells s))) as n.
    intro n. induction (cells s) as [|r rows IH]; simpl; constructor.
    + intro j. rewrite nth_app_repeat_nil. reflexivity.
    + exact IH.
Qed.

Lemma padded_row_nth (W : list nat) (ch : char) (col_i : nat) (row : list str) (j : nat) (c : str) :
  nth_error row j = Some c ->
  nth_error (padded_row cw W ch col_i row) j
  = Some (c ++ repeat ch (nth (col_i + j) W 0 - width cw c)).
Proof.
  revert col_i j. induction row as [|x r IH]; intros col_i [|j] H; simpl in *; try discriminate.
  - inversion H. rewrite Nat.add_0_r. reflexivity.
  - rewrite IH with (1 := H). rewrite Nat.add_succ_r. reflexivity.
Qed.

Lemma padded_rows_nth (W : list nat) (row_i : nat) (rows : list (list str)) (i : nat)
    (row : list str) :
  nth_error rows i = Some row ->
  nth_error (padded_rows cw W row_i rows) i
  = Some (padded_row cw W (pad_char (row_i + i)) 0 row).
Proof.
  revert row_i i. induction rows as [|r rows IH]; intros row_i [|i] H; simpl in *; try discriminate.
  - inversion H. rewrite Nat.add_0_r. reflexivity.
  - rewrite IH with (1 := H). rewrite Nat.add_succ_r. reflexivity.
Qed.

Lemma nth_error_padded_rows_inv (W : list nat) (row_i : nat) (rows : list (list str))
    (i : nat) (row' : list str) :
  nth_error (padded_rows cw W row_i rows) i = Some row' ->
  exists row, nth_error rows i = Some row /\ row' = padded_row cw W (pad_char (row_i + i)) 0 row.
Proof.
  intro H. destruct (nth_error rows i) as [row|] eqn:E.
  - exists row. split; [reflexivity|]. rewrite (padded_rows_nth W row_i rows i row E) in H.
    now inversion H.
  - apply nth_error_None in E. rewrite <- (length_padded_rows W row_i) in E.
    apply nth_error_None in E. congruence.
Qed.

End Padding.

(** ** The successful path of [format_table] *)

Lemma format_table_ok_inv (cw : char -> nat) (st st' : TableFormatter) (t out : str) :
  format_table cw st t = (st', Ok out) ->
  exists st1 u,
    import_table cw new t = (st1, Ok u) /\ 2 <= length (cells st1)
    /\ size_ok (length (cells st1)) (length (column_widths st1))
    /\ is_separator_row st1 1 = true
    /\ st' = mkFormatter
               (padded_rows cw (column_widths (add_missing_cell_columns (get_column_widths cw st1))) 0
                  (cells (add_missing_cell_columns (get_column_widths cw st1))))
               (column_widths (add_missing_cell_columns (get_column_widths cw st1)))
    /\ out = render_output st'.
Proof.
  unfold format_table. destruct (is_empty (trim t)); [discriminate|].
  destruct (import_table cw (mkFormatter [] []) t) as [st1 o] eqn:I.
  destruct o as [u|e|]; try discriminate.
  destruct (length (cells st1) <? 2) eqn:L; [discriminate|].
  destruct ((MAX_ROWS <? N.of_nat (length (cells st1))) || (MAX_COLS <? N.of_nat (length (column_widths st1)))
            || (MAX_CELLS <? usize_mul (N.of_nat (length (cells st1))) (N.of_nat (length (column_widths st1)))))%N
    eqn:S; [discriminate|].
  destruct (is_separator_row st1 1) eqn:Sep; simpl; [|discriminate].
  rewrite pad_after_add_missing. intro H. inversion H; subst.
  exists st1, u. repeat split; auto. apply Nat.ltb_ge. exact L.
Qed.

Lemma format_table_no_panic (cw : char -> nat) (st : TableFormatter) (t : str) :
  snd (format_table cw st t) <> Panic.
Proof.
  unfold format_table. destruct (is_empty (trim t)); [discriminate|].
  destruct (import_table_result cw (mkFormatter [] []) t) as [E|[E _]];
    destruct (import_table cw (mkFormatter [] []) t) as [st1 o]; simpl in E; subst o;
    [discriminate|].
  repeat match goal with |- context [if ?b then _ else _] => destruct b end;
    try discriminate.
  rewrite pad_after_add_missing. discriminate.
Qed.

Lemma try_format_table_at_some (cw : char -> nat) (self : TableFormatter) (rest : list str) :
  try_format_table_at cw self rest <> None.
Proof.
  unfold try_format_table_at. destruct (take_while _ rest); [discriminate|].
  pose proof (format_table_no_panic cw self (join [LF] (l :: l0))) as H.
  destruct (format_table cw self _) as [s [a|e|]]; [discriminate|discriminate|].
  simpl in H. contradiction.
Qed.

Lemma scan_some (cw : char -> nat) (fuel : nat) (self : TableFormatter) (rest : list str) :
  scan cw fuel self rest <> None.
Proof.
  revert self rest. induction fuel as [|fuel IH]; intros self rest; simpl; [discriminate|].
  destruct rest as [|line tl]; [discriminate|].
  assert (V : forall s, match scan cw fuel s tl with
                        | None => None | Some out => Some (line ++ [LF] ++ out) end <> None).
  { intro s. pose proof (IH s tl). destruct (scan cw fuel s tl); [discriminate|contradiction]. }
  destruct (is_candidate line); [|apply V].
  pose proof (try_format_table_at_some cw self (line :: tl)) as T.
  destruct (try_format_table_at cw self (line :: tl)) as [[s [[n f]|]]|]; [|apply V|contradiction].
  pose proof (IH s (skipn n (line :: tl))). destruct (scan cw fuel s _); [discriminate|contradiction].
Qed.

Lemma format_document_some (cw : char -> nat) (st : TableFormatter) (d : str) :
  format_document cw st d <> None.
Proof.
  unfold format_document.
  pose proof (scan_some cw (length (lines d)) st (lines d)) as H.
  destruct (scan cw _ st _); [discriminate|contradiction].
Qed.

(** C10: format_table never panics (it returns Ok or one of the four
    TableError values; in particular padding never indexes past
    column_widths) and format_document always returns a string. *)
Theorem format_table_document_total (cw : char -> nat) :
  (forall (st : TableFormatter) (t : str), snd (format_table cw st t) <> Panic) /\
  (forall (st : TableFormatter) (d : str), format_document cw st d <> None).
Proof.
  split; [apply format_table_no_panic|apply format_document_some].
Qed.

(** ** Invariants of a successful [format_table] *)

Lemma is_separator_row_spec (s : TableFormatter) :
  is_separator_row s 1 = true ->
  exists r1, nth_error (cells s) 1 = Some r1 /\ r1 <> []
             /\ Forall (fun c => c <> [] /\ Forall (fun x => x = DASH) c) r1.
Proof.
  unfold is_separator_row. destruct (nth_error (cells s) 1) as [[|c r]|]; try discriminate.
  intro H. eexists. split; [reflexivity|]. split; [discriminate|].
  apply Forall_forall. intros x Hx. apply forallb_forall with (x := x) in H; [|exact Hx].
  apply andb_true_iff in H as [H1 H2]. split; [destruct x; discriminate|].
  apply Forall_forall. intros y Hy. apply forallb_forall with (x := y) in H2; [|exact Hy].
  apply N.eqb_eq in H2. now subst.
Qed.

Lemma padded_rows_Forall (cw : char -> nat) (P : list str -> Prop) (W : list nat)
    (row_i : nat) (rows : list (list str)) :
  (forall i row, nth_error rows i = Some row ->
     P (padded_row cw W (pad_char (row_i + i)) 0 row)) ->
  Forall P (padded_rows cw W row_i rows).
Proof.
  intro H. apply Forall_forall. intros r' Hr'.
  apply In_nth_error in Hr' as [i Hi].
  destruct (nth_error_padded_rows_inv cw W row_i rows i r' Hi) as (row & E & ->).
  exact (H i row E).
Qed.

Lemma padded_row_Forall (cw : char -> nat) (P : str -> Prop) (W : list nat) (ch : char)
    (col_i : nat) (row : list str) :
  (forall c k, In c row -> P (c ++ repeat ch k)) ->
  Forall P (padded_row cw W ch col_i row).
Proof.
  revert col_i. induction row as [|c r IH]; intros col_i H; simpl; constructor.
  - apply H. now left.
  - apply IH. intros c' k Hc'. apply H. now right.
Qed.

Lemma clean_pad (c : str) (i k : nat) : clean c -> clean (c ++ repeat (pad_char i) k).
Proof.
  unfold clean, pad_char. intros [H1 H2].
  split; intro H; apply in_app_or in H as [H|H]; try contradiction;
    apply repeat_spec in H; destruct (i =? 1); discriminate.
Qed.

Lemma format_table_ok_renderable (cw : char -> nat) (st st' : TableFormatter) (t out : str) :
  format_table cw st t = (st', Ok out) ->
  out = render_output st' /\ renderable (cells st') (length (column_widths st')).
Proof.
  intro H. destruct (format_table_ok_inv _ _ _ _ _ H)
    as (st1 & u & I & L & S & Sep & -> & ->). split; [reflexivity|].
  destruct (import_table_ok cw t st1 u I) as [Cl Wd].
  destruct (is_separator_row_spec st1 Sep) as (r1 & E1 & Ne1 & D1).
  set (s2 := add_missing_cell_columns (get_column_widths cw st1)).
  assert (Hw : column_widths s2 = widths_of cw (cells st1)) by reflexivity.
  cbn [cells column_widths]. rewrite Hw.
  set (n := length (widths_of cw (cells st1))).
  assert (Rect := add_missing_rect cw st1). fold s2 in Rect. fold n in Rect.
  assert (Hn : 1 <= n).
  { pose proof (widths_of_row_le cw (cells st1) r1 (nth_error_In _ _ E1)).
    destruct r1; [contradiction|]. simpl in *. lia. }
  assert (Hs2 : cells s2 = map (fun row => row ++ repeat [] (n - length row)) (cells st1))
    by reflexivity.
  unfold renderable. split; [|split; [exact Hn|split; [|split; [|split]]]].
  - rewrite length_padded_rows, Hs2, length_map. exact L.
  - apply padded_rows_Forall. intros i row Hi.
    rewrite length_padded_row. rewrite Forall_forall in Rect.
    apply Rect. eapply nth_error_In. exact Hi.
  - apply padded_rows_Forall. intros i row Hi. apply padded_row_Forall.
    intros c k Hc. apply clean_pad.
    apply nth_error_In in Hi. rewrite Hs2 in Hi. apply in_map_iff in Hi as (r & <- & Hr).
    apply in_app_or in Hc as [Hc|Hc].
    + rewrite Forall_forall in Cl. specialize (Cl r Hr). rewrite Forall_forall in Cl. auto.
    + apply repeat_spec in Hc. subst. split; intros [].
  - intros r1' E1'. destruct (nth_error_padded_rows_inv cw _ 0 _ 1 r1' E1') as (row & Er & ->).
    apply padded_row_Forall. intros c k Hc.
    rewrite Hs2, nth_error_map, E1 in Er. simpl in Er. inversion Er; subst row.
    apply Forall_app. split.
    + apply in_app_or in Hc as [Hc|Hc].
      * rewrite Forall_forall in D1. apply D1. exact Hc.
      * apply repeat_spec in Hc. subst. constructor.
    + apply Forall_forall. intros x Hx. apply repeat_spec in Hx. exact Hx.
  - rewrite length_padded_rows, Hs2, length_map. unfold n. rewrite <- Wd. exact S.
Qed.

(** ** C1: every cell is right-padded to its column's width *)

(** C1: on every input on which format_table succeeds, each cell of the
    rendered rows is the cell before padding with characters appended at
    its right: spaces, or dashes in row 1; its display width then equals
    the width computed for its column, which is the maximum display width
    of that column's cells over all rows (spaces and dashes having display
    width 1, as in unicode-width). *)
Theorem format_table_width_invariant (cw : char -> nat) (HS : cw SPACE = 1) (HD : cw DASH = 1)
    (st st' : TableFormatter) (t out : str) :
  format_table cw st t = (st', Ok out) ->
  let pre := cells (add_missing_cell_columns (get_column_widths cw (fst (import_table cw new t)))) in
  let W := column_widths st' in
  out = render_output st' /\ W = widths_of cw pre /\ length (cells st') = length pre /\
  (forall i j c, cell_at pre i j = Some c ->
     exists w, nth_error W j = Some w /\ width cw c <= w /\
       cell_at (cells st') i j
       = Some (c ++ repeat (if i =? 1 then DASH else SPACE) (w - width cw c)) /\
       width cw (c ++ repeat (if i =? 1 then DASH else SPACE) (w - width cw c)) = w) /\
  (forall i j c', cell_at (cells st') i j = Some c' -> exists c, cell_at pre i j = Some c) /\
  (forall j w, nth_error W j = Some w -> exists i c, cell_at pre i j = Some c /\ width cw c = w).
Proof.
  intro H. destruct (format_table_ok_renderable _ _ _ _ _ H) as [_ [L2 _]].
  destruct (format_table_ok_inv _ _ _ _ _ H) as (st1 & u & I & L & S & Sep & Est & Eout).
  intros pre W.
  set (s2 := add_missing_cell_columns (get_column_widths cw st1)) in *.
  assert (Hpre : pre = cells s2) by (unfold pre; rewrite I; reflexivity).
  assert (HW0 : W = column_widths s2) by (unfold W; rewrite Est; reflexivity).
  clearbody pre W.
  assert (HW : W = widths_of cw pre).
  { rewrite HW0, Hpre. unfold s2. rewrite add_missing_widths. reflexivity. }
  assert (Hcells : cells st' = padded_rows cw W 0 pre)
    by (rewrite Est, HW0, Hpre; reflexivity).
  assert (Rect : Forall (fun r => length r = length W) pre).
  { rewrite HW, Hpre. unfold s2. rewrite add_missing_widths. apply add_missing_rect. }
  rewrite Forall_forall in Rect.
  split; [exact Eout|]. split; [exact HW|].
  split; [rewrite Hcells; apply length_padded_rows|].
  split; [|split].
  - intros i j c Hc. unfold cell_at in Hc.
    destruct (nth_error pre i) as [row|] eqn:Ei; [|discriminate].
    assert (Hj : j < length W).
    { rewrite <- (Rect row (nth_error_In _ _ Ei)). apply nth_error_Some. congruence. }
    exists (nth j W 0). split; [apply nth_error_nth'; exact Hj|].
    assert (Hle : width cw c <= nth j W 0).
    { rewrite HW. rewrite <- (nth_error_nth row j [] Hc).
      apply widths_of_cell_le. eapply nth_error_In. exact Ei. }
    split; [exact Hle|]. split.
    + unfold cell_at. rewrite Hcells, (padded_rows_nth cw W 0 pre i row Ei).
      rewrite (padded_row_nth cw W _ 0 row j c Hc). reflexivity.
    + rewrite width_app, width_repeat. destruct (i =? 1); rewrite ?HS, ?HD; lia.
  - intros i j c' Hc'. unfold cell_at in *. rewrite Hcells in Hc'.
    destruct (nth_error (padded_rows cw W 0 pre) i) as [r'|] eqn:Ei'; [|discriminate].
    destruct (nth_error_padded_rows_inv cw W 0 pre i r' Ei') as (row & Ei & ->).
    rewrite Ei. destruct (nth_error row j) as [c|] eqn:Ej; [now exists c|].
    apply nth_error_None in Ej. rewrite <- (length_padded_row cw W (pad_char (0 + i)) 0) in Ej.
    apply nth_error_None in Ej. congruence.
  - intros j w Hw. assert (Hj : j < length W) by (apply nth_error_Some; congruence).
    assert (Ew : w = nth j W 0) by (symmetry; apply nth_error_nth; exact Hw).
    assert (Cell : forall i row, nth_error pre i = Some row ->
                   cell_at pre i j = Some (nth j row [])).
    { intros i row Ei. unfold cell_at. rewrite Ei. apply nth_error_nth'.
      rewrite (Rect row (nth_error_In _ _ Ei)). exact Hj. }
    pose proof (widths_of_nth cw pre j) as N. rewrite <- HW, <- Ew in N.
    destruct (fold_max_attained (fun r => width cw (nth j r [])) pre 0) as [Z|(row & Hr & Er)].
    + rewrite <- N in Z. subst w.
      assert (Lp : 2 <= length pre)
        by (rewrite Hcells, length_padded_rows in L2; exact L2).
      destruct pre as [|row0 rest] eqn:Ep; [simpl in Lp; lia|].
      exists 0, (nth j row0 []). split; [apply Cell; reflexivity|].
      pose proof (widths_of_cell_le cw (row0 :: rest) row0 j (or_introl eq_refl)).
      rewrite <- HW in H0. lia.
    + apply In_nth_error in Hr as [i Ei]. exists i, (nth j row []).
      split; [apply Cell; exact Ei|]. rewrite Er. symmetry; exact N.
Qed.

(** ** Witnesses *)

Lemma format_table_width_invariant_witness :
  let st' := fst (format_table sample_width new sample_table) in
  let out := render_output st' in
  sample_width SPACE = 1 /\ sample_width DASH = 1 /\
  format_table sample_width new sample_table = (st', Ok out) /\
  let pre := cells (add_missing_cell_columns
                      (get_column_widths sample_width (fst (import_table sample_width new sample_table)))) in
  let W := column_widths st' in
  out = render_output st' /\ W = widths_of sample_width pre /\ length (cells st') = length pre /\
  (forall i j c, cell_at pre i j = Some c ->
     exists w, nth_error W j = Some w /\ width sample_width c <= w /\
       cell_at (cells st') i j
       = Some (c ++ repeat (if i =? 1 then DASH else SPACE) (w - width sample_width c)) /\
       width sample_width (c ++ repeat (if i =? 1 then DASH else SPACE) (w - width sample_width c)) = w) /\
  (forall i j c', cell_at (cells st') i j = Some c' -> exists c, cell_at pre i j = Some c) /\
  (forall j w, nth_error W j = Some w -> exists i c, cell_at pre i j = Some c /\ width sample_width c = w).
Proof.
  intros st' out.
  assert (E : format_table sample_width new sample_table = (st', Ok out))
    by (vm_compute; reflexivity).
  split; [reflexivity|]. split; [reflexivity|]. split; [exact E|].
  exact (format_table_width_invariant sample_width eq_refl eq_refl new st' sample_table out E).
Defined.

(** ** Lines of the rendered table *)

Lemma render_output_lines (C : list (list str)) (W : list nat) :
  2 <= length C -> render_output (mkFormatter C W) = unlines (render_lines C).
Proof.
  intro L. destruct C as [|r0 [|r1 rest]]; simpl in L; try lia.
  assert (Hm : map render_row rest = map (fun l => row_line l ++ [LF]) rest).
  { apply map_ext. intro r. unfold render_row, row_line. rewrite <- !app_assoc. reflexivity. }
  unfold render_output, unlines, render_lines. cbn [cells skipn map concat].
  rewrite map_map, <- Hm.
  unfold render_row, render_sep, row_line, sep_line. rewrite <- !app_assoc. reflexivity.
Qed.

Lemma lines_go_app (acc b rest : str) :
  ~ In LF b -> lines_go acc (b ++ LF :: rest) = strip_cr (rev acc ++ b) :: lines_go [] rest.
Proof.
  revert acc. induction b as [|x b IH]; intros acc Hb.
  - simpl. rewrite app_nil_r. reflexivity.
  - cbn [app lines_go]. destruct (x =? LF)%N eqn:E.
    + apply N.eqb_eq in E. subst. exfalso. apply Hb. left. reflexivity.
    + rewrite IH by (intro; apply Hb; right; assumption).
      cbn [rev]. rewrite <- app_assoc. reflexivity.
Qed.

Lemma lines_unlines (ls : list str) :
  Forall (fun l => ~ In LF l) ls -> lines (unlines ls) = map strip_cr ls.
Proof.
  unfold lines, unlines. induction 1 as [|l ls Hl _ IH]; [reflexivity|].
  cbn [map concat]. rewrite <- app_assoc. cbn [app].
  rewrite lines_go_app by exact Hl. rewrite IH. reflexivity.
Qed.

Lemma strip_cr_last (l : str) (c : char) : c <> CR -> strip_cr (l ++ [c]) = l ++ [c].
Proof.
  intro Hc. unfold strip_cr. rewrite rev_app_distr. cbn [rev app].
  destruct (c =? CR)%N eqn:E; [apply N.eqb_eq in E; contradiction|reflexivity].
Qed.

Lemma In_join (x : char) (sep : str) (row : list str) :
  In x (join sep row) -> In x sep \/ exists c, In c row /\ In x c.
Proof.
  induction row as [|c row IH]; [intros []|].
  destruct row as [|c' row'].
  - intro H. right. exists c. split; [left; reflexivity|exact H].
  - intro H. change (In x (c ++ sep ++ join sep (c' :: row'))) in H.
    apply in_app_or in H as [H|H]; [right; exists c; split; [left|]; auto|].
    apply in_app_or in H as [H|H]; [left; exact H|].
    destruct (IH H) as [H'|(c0 & Hc0 & Hx)]; [left; exact H'|].
    right. exists c0. split; [right; exact Hc0|exact Hx].
Qed.

Lemma count_char_app (c : char) (a b : str) :
  count_char c (a ++ b) = count_char c a + count_char c b.
Proof. unfold count_char. rewrite filter_app, length_app. reflexivity. Qed.

Lemma count_char_notin (c : char) (s : str) : ~ In c s -> count_char c s = 0.
Proof.
  unfold count_char. induction s as [|x s IH]; intro H; [reflexivity|].
  cbn [filter]. destruct (N.eqb c x) eqn:E.
  - apply N.eqb_eq in E. subst. exfalso. apply H. left. reflexivity.
  - apply IH. intro; apply H; right; assumption.
Qed.

Lemma count_join (c : char) (sep : str) (row : list str) :
  Forall (fun x => ~ In c x) row -> row <> [] ->
  count_char c (join sep row) = (length row - 1) * count_char c sep.
Proof.
  induction 1 as [|x row Hx Hr IH]; intro Ne; [contradiction|].
  destruct row as [|y row'].
  - cbn [join length]. rewrite count_char_notin by exact Hx. reflexivity.
  - change (join sep (x :: y :: row')) with (x ++ sep ++ join sep (y :: row')).
    rewrite !count_char_app, count_char_notin by exact Hx.
    rewrite IH by discriminate. cbn [length]. nia.
Qed.

Lemma line_char_cases (x : char) (row : list str) (sep pre post : str) :
  In x (pre ++ join sep row ++ post) ->
  In x pre \/ In x sep \/ In x post \/ exists c, In c row /\ In x c.
Proof.
  intro H. apply in_app_or in H as [H|H]; [left; exact H|].
  apply in_app_or in H as [H|H]; [|right; right; left; exact H].
  destruct (In_join _ _ _ H) as [H'|H']; [right; left; exact H'|right; right; right; exact H'].
Qed.

Lemma render_lines_props (C : list (list str)) (n : nat) :
  renderable C n ->
  Forall (fun l => ~ In LF l /\ strip_cr l = l /\ count_char PIPE l = S n) (render_lines C)
  /\ length (render_lines C) = length C.
Proof.
  intros (L & N & Len & Cl & _ & _).
  assert (Row : forall sp r, In r C -> In sp [SPACE; DASH] ->
     let l := [PIPE; sp] ++ join [sp; PIPE; sp] r ++ [sp; PIPE] in
     ~ In LF l /\ strip_cr l = l /\ count_char PIPE l = S n).
  { intros sp r Hr Hsp l.
    rewrite Forall_forall in Len, Cl. specialize (Len r Hr). specialize (Cl r Hr).
    rewrite Forall_forall in Cl.
    assert (Hsp' : sp <> LF /\ sp <> PIPE /\ sp <> CR)
      by (destruct Hsp as [<-|[<-|[]]]; unfold SPACE, DASH, LF, PIPE, CR; repeat split; discriminate).
    destruct Hsp' as (S1 & S2 & S3). split; [|split].
    - intro H. destruct (line_char_cases _ _ _ _ _ H) as [H1|[H1|[H1|(c & Hc & H1)]]].
      + destruct H1 as [H1|[H1|[]]]; [discriminate|congruence].
      + destruct H1 as [H1|[H1|[H1|[]]]]; [congruence|discriminate|congruence].
      + destruct H1 as [H1|[H1|[]]]; [congruence|discriminate].
      + exact (proj2 (Cl c Hc) H1).
    - assert (E : l = ([PIPE; sp] ++ join [sp; PIPE; sp] r ++ [sp]) ++ [PIPE])
        by (unfold l; rewrite <- !app_assoc; reflexivity).
      rewrite E. apply strip_cr_last. discriminate.
    - unfold l. rewrite !count_char_app.
      rewrite count_join.
      + unfold count_char. cbn [filter].
        destruct (N.eqb PIPE sp) eqn:Ep; [apply N.eqb_eq in Ep; congruence|].
        cbn. destruct r; cbn [length] in Len |- *; lia.
      + apply Forall_forall. intros c Hc. exact (proj1 (Cl c Hc)).
      + intro E. subst r. cbn [length] in Len. lia. }
  destruct C as [|r0 [|r1 rest]]; cbn [length] in L; try lia.
  split; [|cbn [render_lines length]; rewrite length_map; reflexivity].
  unfold render_lines. constructor; [|constructor].
  - exact (Row SPACE r0 (or_introl eq_refl) (or_introl eq_refl)).
  - exact (Row DASH r1 (or_intror (or_introl eq_refl)) (or_intror (or_introl eq_refl))).
  - apply Forall_map, Forall_forall. intros r Hr.
    exact (Row SPACE r (or_intror (or_intror Hr)) (or_introl eq_refl)).
Qed.

Lemma lines_render_output (C : list (list str)) (W : list nat) (n : nat) :
  renderable C n -> lines (render_output (mkFormatter C W)) = render_lines C.
Proof.
  intro R. destruct (render_lines_props C n R) as [P _].
  rewrite render_output_lines by (destruct R; assumption).
  rewrite lines_unlines by (eapply Forall_impl; [|exact P]; intros l Hl; apply Hl).
  transitivity (map (fun l => l) (render_lines C)); [|apply map_id].
  apply map_ext_in. intros l Hl. rewrite Forall_forall in P. apply (P l Hl).
Qed.

(** ** C2: pipe count per line *)

(** C2: on every input on which format_table succeeds, the output has at
    least two lines (header and separator), and every line of the output
    holds exactly [n + 1] pipe characters, [n] being the column count of
    the normalized table (the length of [column_widths]). *)
Theorem format_table_pipe_count (cw : char -> nat) (st st' : TableFormatter) (t out : str) :
  format_table cw st t = (st', Ok out) ->
  2 <= length (lines out) /\
  Forall (fun l => count_char PIPE l = S (length (column_widths st'))) (lines out).
Proof.
  intro H. destruct (format_table_ok_renderable _ _ _ _ _ H) as [-> R].
  destruct st' as [C W]. cbn [cells column_widths] in *.
  rewrite (lines_render_output C W _ R).
  destruct (render_lines_props C _ R) as [P Lr]. split.
  - rewrite Lr. destruct R. assumption.
  - eapply Forall_impl; [|exact P]. intros l Hl. apply Hl.
Qed.

Lemma format_table_pipe_count_witness :
  let st' := fst (format_table sample_width new sample_table) in
  let out := render_output st' in
  format_table sample_width new sample_table = (st', Ok out) /\
  2 <= length (lines out) /\
  Forall (fun l => count_char PIPE l = S (length (column_widths st'))) (lines out).
Proof.
  intros st' out.
  assert (E : format_table sample_width new sample_table = (st', Ok out))
    by (vm_compute; reflexivity).
  split; [exact E|].
  exact (format_table_pipe_count sample_width new st' sample_table out E).
Defined.

(** ** C3: re-feeding the output *)

(** C3 (the claim fails): a header with an empty last column gives a
    separator with a 2-dash cell for that column; re-feeding the output
    widens the column to 3 (the width of the ["---"] the separator now
    holds), so the second run differs from the first. *)
Lemma format_table_refeed_differs :
  snd (format_table sample_width new (text ["| a | |"; "|-"]))
    = Ok (text ["| a |  |"; "|---|--|"; ""])
  /\ snd (format_table sample_width new (text ["| a |  |"; "|---|--|"; ""]))
    = Ok (text ["| a |   |"; "|---|---|"; ""])
  /\ text ["| a |  |"; "|---|--|"; ""] <> text ["| a |   |"; "|---|---|"; ""].
Proof. split; [|split]; [vm_compute; reflexivity|vm_compute; reflexivity|discriminate]. Qed.

Lemma format_table_ok_of_import (cw : char -> nat) (st st1 : TableFormatter) (t : str) (u : unit) :
  import_table cw new t = (st1, Ok u) -> 2 <= length (cells st1) ->
  size_ok (length (cells st1)) (length (column_widths st1)) ->
  is_separator_row st1 1 = true ->
  let s2 := add_missing_cell_columns (get_column_widths cw st1) in
  let st' := mkFormatter (padded_rows cw (column_widths s2) 0 (cells s2)) (column_widths s2) in
  format_table cw st t = (st', Ok (render_output st')).
Proof.
  intros I L S Sep s2 st'. pose proof (import_ok_trim cw new st1 t u I) as E.
  unfold format_table. rewrite E. change (mkFormatter [] []) with new. rewrite I.
  assert (L' : (length (cells st1) <? 2) = false) by (apply Nat.ltb_ge; exact L).
  rewrite L'. unfold size_ok in S. rewrite S, Sep. cbn [negb].
  rewrite pad_after_add_missing. reflexivity.
Qed.

Lemma trim_start_app_ws (w x : str) :
  Forall (fun c => is_whitespace c = true) w -> trim_start (w ++ x) = trim_start x.
Proof. induction 1 as [|c w Hc _ IH]; [reflexivity|]. cbn [app trim_start]. rewrite Hc. exact IH. Qed.

Lemma trim_start_app (a b : str) :
  trim_start (a ++ b) = match trim_start a with [] => trim_start b | _ => trim_start a ++ b end.
Proof.
  induction a as [|c a IH]; [reflexivity|]. cbn [app trim_start].
  destruct (is_whitespace c); [exact IH|reflexivity].
Qed.

Lemma trim_start_head (s u : str) (x : char) :
  trim_start s = x :: u -> is_whitespace x = false.
Proof.
  induction s as [|c s IH]; [discriminate|]. cbn [trim_start].
  destruct (is_whitespace c) eqn:E; [exact IH|]. intro H. injection H as -> _. exact E.
Qed.

Lemma trim_start_idem (s : str) : trim_start (trim_start s) = trim_start s.
Proof.
  induction s as [|c s IH]; [reflexivity|]. cbn [trim_start].
  destruct (is_whitespace c) eqn:E; [exact IH|]. cbn [trim_start]. rewrite E. reflexivity.
Qed.

Lemma trim_idem (s : str) : trim (trim s) = trim s.
Proof.
  unfold trim.
  assert (H : trim_start (trim_end (trim_start s)) = trim_end (trim_start s)).
  { destruct (trim_start s) as [|x u] eqn:E; [reflexivity|].
    pose proof (trim_start_head s u x E) as Hx. unfold trim_end. cbn [rev].
    rewrite trim_start_app. destruct (trim_start (rev u)) as [|y v].
    - cbn [trim_start rev app]. rewrite Hx. cbn [trim_start rev app]. rewrite Hx. reflexivity.
    - rewrite rev_app_distr. cbn [rev app trim_start]. rewrite Hx. reflexivity. }
  rewrite H. unfold trim_end. rewrite rev_involutive, trim_start_idem. reflexivity.
Qed.

Lemma trim_app_ws (a w : str) :
  Forall (fun c => is_whitespace c = true) w -> trim (a ++ w) = trim a.
Proof.
  intro Hw. unfold trim, trim_end. rewrite trim_start_app.
  destruct (trim_start a) as [|c l] eqn:E.
  - rewrite <- (app_nil_r w), trim_start_app_ws by exact Hw. reflexivity.
  - rewrite rev_app_distr, trim_start_app_ws by (apply Forall_rev; exact Hw). reflexivity.
Qed.

Lemma trim_ws_app (w a : str) :
  Forall (fun c => is_whitespace c = true) w -> trim (w ++ a) = trim a.
Proof. intro Hw. unfold trim. rewrite trim_start_app_ws by exact Hw. reflexivity. Qed.

Lemma trim_fixed (d : char) (y : str) :
  is_whitespace d = false -> trim (d :: y ++ [d]) = d :: y ++ [d].
Proof.
  intro Hd. unfold trim, trim_end. cbn [trim_start]. rewrite Hd.
  change (d :: y ++ [d]) with ([d] ++ y ++ [d]).
  rewrite !rev_app_distr. cbn [rev app]. cbn [trim_start]. rewrite Hd.
  change (d :: rev y ++ [d]) with ([d] ++ rev y ++ [d]).
  rewrite !rev_app_distr, rev_involutive. reflexivity.
Qed.

Lemma ws_space : is_whitespace SPACE = true.
Proof. reflexivity. Qed.

Lemma ws_dash : is_whitespace DASH = false.
Proof. reflexivity. Qed.

Lemma split_go_app (sep : char) (acc x rest : str) :
  ~ In sep x -> split_go sep acc (x ++ sep :: rest) = (rev acc ++ x) :: split_go sep [] rest.
Proof.
  revert acc. induction x as [|c x IH]; intros acc Hx.
  - cbn [app split_go]. rewrite N.eqb_refl, app_nil_r. reflexivity.
  - cbn [app split_go]. destruct (N.eqb_spec c sep) as [->|Ne].
    + exfalso. apply Hx. left. reflexivity.
    + rewrite IH by (intro; apply Hx; right; assumption).
      cbn [rev]. rewrite <- app_assoc. reflexivity.
Qed.

Lemma split_line_go (sp : char) (r : list str) :
  sp <> PIPE -> r <> [] -> Forall (fun c => ~ In PIPE c) r ->
  split_go PIPE [] (sp :: join [sp; PIPE; sp] r ++ [sp; PIPE])
  = map (fun c => sp :: c ++ [sp]) r ++ [[]].
Proof.
  intros Hsp Hne H. revert Hne. induction H as [|c r Hc Hr IH]; intro Hne; [contradiction|].
  assert (Hc' : ~ In PIPE (sp :: c ++ [sp])).
  { intros [E|E]; [congruence|]. apply in_app_or in E as [E|[E|[]]]; [contradiction|congruence]. }
  destruct r as [|c' r'].
  - change (join [sp; PIPE; sp] [c]) with c.
    replace (sp :: c ++ [sp; PIPE]) with ((sp :: c ++ [sp]) ++ PIPE :: [])
      by (cbn [app]; rewrite <- app_assoc; reflexivity).
    rewrite split_go_app by exact Hc'. reflexivity.
  - change (join [sp; PIPE; sp] (c :: c' :: r')) with (c ++ [sp; PIPE; sp] ++ join [sp; PIPE; sp] (c' :: r')).
    replace (sp :: (c ++ [sp; PIPE; sp] ++ join [sp; PIPE; sp] (c' :: r')) ++ [sp; PIPE])
      with ((sp :: c ++ [sp]) ++ PIPE :: (sp :: join [sp; PIPE; sp] (c' :: r') ++ [sp; PIPE]))
      by (cbn [app]; rewrite <- !app_assoc; reflexivity).
    rewrite split_go_app by exact Hc'. rewrite IH by discriminate. reflexivity.
Qed.

Lemma split_line (sp : char) (r : list str) :
  sp <> PIPE -> r <> [] -> Forall (fun c => ~ In PIPE c) r ->
  split PIPE ([PIPE; sp] ++ join [sp; PIPE; sp] r ++ [sp; PIPE])
  = [] :: map (fun c => sp :: c ++ [sp]) r ++ [[]].
Proof.
  intros Hsp Hr H. unfold split.
  change ([PIPE; sp] ++ join [sp; PIPE; sp] r ++ [sp; PIPE])
    with ([] ++ PIPE :: (sp :: join [sp; PIPE; sp] r ++ [sp; PIPE])).
  rewrite split_go_app by (intros []). rewrite split_line_go by assumption. reflexivity.
Qed.

Lemma parse_cell_nil (i : nat) : parse_cell i [] = [].
Proof. unfold parse_cell. destruct (i =? 1); reflexivity. Qed.

Lemma parse_cell_space (i : nat) (c : str) :
  i <> 1 -> parse_cell i (SPACE :: c ++ [SPACE]) = trim c.
Proof.
  intro Hi. unfold parse_cell. apply Nat.eqb_neq in Hi. rewrite Hi. cbn [andb].
  change (SPACE :: c ++ [SPACE]) with ([SPACE] ++ c ++ [SPACE]).
  rewrite trim_ws_app, trim_app_ws by (repeat constructor). reflexivity.
Qed.

Lemma parse_cell_dash (c : str) :
  Forall (fun x => x = DASH) c -> parse_cell 1 (DASH :: c ++ [DASH]) = [DASH].
Proof.
  intro Hc. unfold parse_cell. rewrite (trim_fixed DASH c ws_dash). cbn [Nat.eqb andb].
  replace (forallb (N.eqb DASH) (DASH :: c ++ [DASH])) with true; [reflexivity|].
  symmetry. apply forallb_forall. intros x Hx. apply N.eqb_eq.
  destruct Hx as [<-|Hx]; [reflexivity|]. apply in_app_or in Hx as [Hx|[<-|[]]]; [|reflexivity].
  rewrite Forall_forall in Hc. symmetry. exact (Hc x Hx).
Qed.

Lemma contains_pipe_line (sp : char) (r : list str) :
  contains PIPE ([PIPE; sp] ++ join [sp; PIPE; sp] r ++ [sp; PIPE]) = true.
Proof. apply contains_In. left. reflexivity. Qed.

Lemma parse_row_line (i : nat) (r : list str) :
  i <> 1 -> r <> [] -> Forall (fun c => ~ In PIPE c) r ->
  map (parse_cell i) (split PIPE (row_line r)) = [] :: map trim r ++ [[]].
Proof.
  intros Hi Hr H. unfold row_line. rewrite split_line by (try discriminate; assumption).
  cbn [map]. rewrite map_app, map_map, parse_cell_nil. cbn [map]. rewrite parse_cell_nil.
  f_equal. f_equal. apply map_ext. intro c. apply parse_cell_space. exact Hi.
Qed.

Lemma parse_sep_line (r : list str) :
  r <> [] -> Forall (Forall (fun x => x = DASH)) r ->
  map (parse_cell 1) (split PIPE (sep_line r)) = [] :: map (fun _ => [DASH]) r ++ [[]].
Proof.
  intros Hr H. unfold sep_line. rewrite split_line.
  - cbn [map]. rewrite map_app, map_map, parse_cell_nil. cbn [map]. rewrite parse_cell_nil.
    f_equal. f_equal. apply map_ext_in. intros c Hc. apply parse_cell_dash.
    rewrite Forall_forall in H. exact (H c Hc).
  - discriminate.
  - exact Hr.
  - eapply Forall_impl; [|exact H]. intros c Hc Hp. rewrite Forall_forall in Hc.
    specialize (Hc PIPE Hp). discriminate Hc.
Qed.

Lemma parse_rows_rest (i : nat) (rest : list (list str)) :
  2 <= i -> Forall (fun r => r <> [] /\ Forall (fun c => ~ In PIPE c) r) rest ->
  parse_rows i (map row_line rest) = map (fun r => [] :: r ++ [[]]) (map (map trim) rest).
Proof.
  intros Hi H. revert i Hi. induction H as [|r rest [Hr Hc] _ IH]; intros i Hi; [reflexivity|].
  cbn [map parse_rows].
  replace (contains PIPE (row_line r)) with true by (symmetry; apply contains_pipe_line).
  cbn [negb]. rewrite parse_row_line by (try lia; assumption). rewrite IH by lia. reflexivity.
Qed.

Lemma renderable_rows (C : list (list str)) (n : nat) :
  renderable C n -> Forall (fun r => r <> [] /\ Forall (fun c => ~ In PIPE c) r) C.
Proof.
  intros (_ & N1 & Len & Cl & _). rewrite Forall_forall in *. intros r Hr. split.
  - intro E. subst r. specialize (Len [] Hr). cbn in Len. lia.
  - specialize (Cl r Hr). rewrite Forall_forall in *. intros c Hc. exact (proj1 (Cl c Hc)).
Qed.

Lemma parse_render (C : list (list str)) (n : nat) :
  renderable C n ->
  parse_rows 0 (render_lines C) = map (fun r => [] :: r ++ [[]]) (normalize C).
Proof.
  intro R. pose proof (renderable_rows C n R) as F.
  destruct R as (L & _ & _ & _ & D & _).
  destruct C as [|r0 [|r1 rest]]; cbn [length] in L; try lia.
  inversion F as [|? ? [Hr0 Hc0] F1]; subst. inversion F1 as [|? ? [Hr1 _] F2]; subst.
  unfold render_lines, normalize. cbn [parse_rows].
  replace (contains PIPE (row_line r0)) with true by (symmetry; apply contains_pipe_line).
  replace (contains PIPE (sep_line r1)) with true by (symmetry; apply contains_pipe_line).
  cbn [negb]. rewrite parse_row_line by (try discriminate; assumption).
  rewrite parse_sep_line by (try assumption; apply D; reflexivity).
  rewrite parse_rows_rest by (try lia; assumption). reflexivity.
Qed.

Lemma widths_wrap_head (cw : char -> nat) (N : list (list str)) :
  N <> [] -> exists ws, widths_of cw (map (fun r => [] :: r ++ [[]]) N) = 0 :: ws.
Proof.
  intro Hne. destruct (widths_of cw (map (fun r => [] :: r ++ [[]]) N)) as [|w ws] eqn:E.
  - destruct N as [|r N']; [contradiction|].
    pose proof (widths_of_row_le cw (map (fun r => [] :: r ++ [[]]) (r :: N'))
                  ([] :: r ++ [[]]) (or_introl eq_refl)) as Le.
    rewrite E in Le. cbn in Le. lia.
  - exists ws. pose proof (widths_of_nth cw (map (fun r => [] :: r ++ [[]]) N) 0) as Z.
    rewrite E in Z. cbn [nth] in Z. rewrite Z.
    rewrite fold_max_const with (n := 0); [reflexivity| |].
    + apply Forall_forall. intros r Hr. apply in_map_iff in Hr as (r' & <- & _). reflexivity.
    + destruct N; [contradiction|discriminate].
Qed.

Lemma widths_snoc_last (cw : char -> nat) (N : list (list str)) (n : nat) :
  N <> [] -> Forall (fun r => length r = n) N ->
  exists ws, widths_of cw (map (fun r => r ++ [[]]) N) = ws /\ length ws = S n /\ nth n ws 0 = 0.
Proof.
  intros Hne H. eexists. split; [reflexivity|]. split.
  - rewrite widths_of_length. apply fold_max_const.
    + apply Forall_map. eapply Forall_impl; [|exact H]. intros r Hr. cbv beta in Hr. rewrite length_app, Hr.
      cbn. lia.
    + destruct N; [contradiction|discriminate].
  - rewrite widths_of_nth. apply fold_max_const.
    + apply Forall_map. eapply Forall_impl; [|exact H]. intros r Hr. cbv beta in Hr.
      rewrite app_nth2 by lia. rewrite Hr, Nat.sub_diag. reflexivity.
    + destruct N; [contradiction|discriminate].
Qed.

Lemma remove_edges_wrap (cw : char -> nat) (N : list (list str)) (n : nat) (W : list nat) :
  N <> [] -> Forall (fun r => length r = n) N ->
  remove_empty_edge_columns cw (mkFormatter (map (fun r => [] :: r ++ [[]]) N) W)
  = mkFormatter N (widths_of cw N).
Proof.
  intros Hne H. destruct (widths_wrap_head cw N Hne) as [ws E].
  destruct (widths_snoc_last cw N n Hne H) as (ws2 & E2 & L2 & Z2).
  unfold remove_empty_edge_columns. cbn [get_column_widths cells column_widths].
  rewrite E. cbn [Nat.eqb]. cbn [get_column_widths cells column_widths].
  rewrite map_map. cbn [app].
  change (map (fun x => x ++ [[]]) N) with (map (fun r => r ++ [[]]) N). rewrite E2.
  destruct ws2 as [|w ws2'] eqn:Ews; [cbn in L2; lia|]. rewrite <- Ews in *.
  rewrite L2. cbn [Nat.sub]. rewrite Nat.sub_0_r, Z2. cbn [Nat.eqb].
  unfold get_column_widths. cbn [cells]. f_equal.
  - rewrite map_map. transitivity (map (fun r => r) N); [|apply map_id].
    apply map_ext_in. intros r Hr. rewrite Forall_forall in H.
    rewrite length_app, H by exact Hr. cbn [length]. rewrite Nat.add_1_r, Nat.eqb_refl.
    apply removelast_last.
  - rewrite map_map. f_equal. transitivity (map (fun r => r) N); [|apply map_id].
    apply map_ext_in. intros r Hr. rewrite Forall_forall in H.
    rewrite length_app, H by exact Hr. cbn [length]. rewrite Nat.add_1_r, Nat.eqb_refl.
    apply removelast_last.
Qed.

Lemma normalize_props (C : list (list str)) (n : nat) :
  renderable C n ->
  length (normalize C) = length C /\ Forall (fun r => length r = n) (normalize C)
  /\ (exists r1, nth_error (normalize C) 1 = Some (map (fun _ : str => [DASH]) r1) /\ r1 <> []).
Proof.
  intros R. pose proof (renderable_rows C n R) as F. destruct R as (L & _ & Len & _).
  destruct C as [|r0 [|r1 rest]]; cbn [length] in L; try lia.
  inversion F as [|? ? _ F1]; subst. inversion F1 as [|? ? [Hr1 _] _]; subst.
  inversion Len as [|? ? L0 Len1]; subst. inversion Len1 as [|? ? L1 Len2]; subst.
  unfold normalize. split; [|split].
  - cbn [length]. rewrite length_map. reflexivity.
  - constructor; [rewrite length_map; first [reflexivity|assumption]|].
    constructor; [rewrite length_map; first [reflexivity|assumption]|].
    apply Forall_map. eapply Forall_impl; [|exact Len2]. intros r Hr. rewrite length_map. exact Hr.
  - exists r1. split; [reflexivity|exact Hr1].
Qed.

Lemma import_render (cw : char -> nat) (C : list (list str)) (n : nat) (W : list nat) :
  renderable C n ->
  import_table cw new (render_output (mkFormatter C W))
  = (mkFormatter (normalize C) (widths_of cw (normalize C)), Ok tt).
Proof.
  intro R. destruct (normalize_props C n R) as (LN & FN & _).
  pose proof (parse_render C n R) as P.
  unfold import_table. rewrite (lines_render_output C W n R).
  destruct R as (L & _).
  destruct C as [|r0 [|r1 rest]] eqn:EC; cbn [length] in L; try lia. rewrite <- EC in *.
  assert (E : render_lines C = row_line r0 :: sep_line r1 :: map row_line rest) by (subst; reflexivity).
  rewrite E. cbn [skip_while].
  replace (contains PIPE (row_line r0)) with true by (symmetry; apply contains_pipe_line).
  cbn [negb new cells app]. rewrite <- E, P. f_equal.
  apply (remove_edges_wrap cw (normalize C) n); [|exact FN].
  intro Z. rewrite Z in LN. subst C. discriminate.
Qed.

Lemma widths_normalize_length (cw : char -> nat) (C : list (list str)) (n : nat) :
  renderable C n -> length (widths_of cw (normalize C)) = n.
Proof.
  intro R. destruct (normalize_props C n R) as (LN & FN & _). destruct R as (L & _).
  rewrite widths_of_length. apply fold_max_const; [exact FN|].
  intro Z. rewrite Z in LN. cbn in LN. lia.
Qed.

Lemma reformat (cw : char -> nat) (st : TableFormatter) (C : list (list str)) (n : nat) (W : list nat) :
  renderable C n ->
  let Nc := normalize C in
  let W' := widths_of cw Nc in
  let st2 := mkFormatter (padded_rows cw W' 0 Nc) W' in
  format_table cw st (render_output (mkFormatter C W)) = (st2, Ok (render_output st2)).
Proof.
  intros R. cbv zeta. pose proof (import_render cw C n W R) as I.
  destruct (normalize_props C n R) as (LN & FN & r1 & E1 & Hr1).
  pose proof (widths_normalize_length cw C n R) as LW.
  destruct R as (L & _ & _ & _ & _ & S).
  set (Nc := normalize C) in *. set (W' := widths_of cw Nc) in *.
  assert (A : add_missing_cell_columns (get_column_widths cw (mkFormatter Nc W')) = mkFormatter Nc W').
  { unfold add_missing_cell_columns, get_column_widths. cbn [cells column_widths]. f_equal.
    transitivity (map (fun r => r) Nc); [|apply map_id]. apply map_ext_in. intros r Hr.
    rewrite Forall_forall in FN. rewrite (FN r Hr). fold W'. rewrite LW, Nat.sub_diag.
    apply app_nil_r. }
  pose proof (format_table_ok_of_import cw st _ _ tt I) as F. cbv zeta in F.
  rewrite A in F. cbn [cells column_widths] in F. apply F.
  - cbn [cells]. rewrite LN. exact L.
  - cbn [cells column_widths]. rewrite LN, LW. exact S.
  - unfold is_separator_row. cbn [cells]. rewrite E1.
    destruct r1 as [|c r1']; [contradiction|]. cbn [map].
    apply forallb_forall. intros x Hx. destruct Hx as [<-|Hx]; [reflexivity|].
    apply in_map_iff in Hx as (? & <- & _). reflexivity.
Qed.

Lemma trim_padded_row (cw : char -> nat) (W : list nat) (col : nat) (r : list str) :
  map trim (padded_row cw W SPACE col (map trim r)) = map trim r.
Proof.
  revert col. induction r as [|c r IH]; intro col; [reflexivity|].
  cbn [map padded_row]. rewrite IH. f_equal.
  rewrite trim_app_ws, trim_idem; [reflexivity|].
  apply Forall_forall. intros x Hx. apply repeat_spec in Hx. subst x. reflexivity.
Qed.

Lemma trim_padded_rows (cw : char -> nat) (W : list nat) (i : nat) (rows : list (list str)) :
  2 <= i -> map (map trim) (padded_rows cw W i (map (map trim) rows)) = map (map trim) rows.
Proof.
  revert i. induction rows as [|r rows IH]; intros i Hi; [reflexivity|].
  cbn [map padded_rows]. unfold pad_char at 1.
  replace (i =? 1) with false by (symmetry; apply Nat.eqb_neq; lia).
  rewrite trim_padded_row, IH by lia. reflexivity.
Qed.

Lemma map_const_length {A B} (x : B) (l l' : list A) :
  length l = length l' -> map (fun _ => x) l = map (fun _ => x) l'.
Proof.
  revert l'. induction l as [|a l IH]; intros [|a' l'] H; cbn in H; try discriminate; [reflexivity|].
  cbn [map]. rewrite (IH l') by lia. reflexivity.
Qed.

Lemma normalize_padded (cw : char -> nat) (W : list nat) (C : list (list str)) :
  2 <= length C -> normalize (padded_rows cw W 0 (normalize C)) = normalize C.
Proof.
  intro L. destruct C as [|r0 [|r1 rest]]; cbn [length] in L; try lia.
  unfold normalize at 2. cbn [padded_rows]. unfold normalize.
  change (pad_char 0) with SPACE. rewrite trim_padded_row, trim_padded_rows by lia.
  f_equal. f_equal. apply map_const_length. rewrite length_padded_row, length_map. reflexivity.
Qed.

(** X17: on every input on which format_table succeeds, re-feeding its
    output succeeds too, and the output of that second run is a fixed
    point: feeding it once more returns it unchanged. *)
Theorem format_table_refeed_fixed_point (cw : char -> nat) (st st' : TableFormatter) (t o1 : str) :
  format_table cw st t = (st', Ok o1) ->
  exists st2 o2, format_table cw st o1 = (st2, Ok o2) /\ format_table cw st o2 = (st2, Ok o2).
Proof.
  intro H. destruct (format_table_ok_renderable _ _ _ _ _ H) as [-> R].
  destruct st' as [C W]. cbn [cells column_widths] in R.
  pose proof (reformat cw st C _ W R) as F1. cbv zeta in F1.
  set (st2 := mkFormatter (padded_rows cw (widths_of cw (normalize C)) 0 (normalize C))
                          (widths_of cw (normalize C))) in F1.
  exists st2, (render_output st2). split; [exact F1|].
  destruct (format_table_ok_renderable _ _ _ _ _ F1) as [_ R2].
  pose proof (reformat cw st (cells st2) _ (column_widths st2) R2) as F2. cbv zeta in F2.
  destruct st2 as [C2 W2] eqn:E2. cbn [cells column_widths] in F2. rewrite F2.
  injection E2 as EC EW. subst C2 W2.
  rewrite normalize_padded by (destruct R as [L _]; exact L). reflexivity.
Qed.

Lemma format_table_refeed_fixed_point_witness :
  let t := text ["| a | |"; "|-"] in
  let st' := fst (format_table sample_width new t) in
  let o1 := render_output st' in
  format_table sample_width new t = (st', Ok o1) /\
  exists st2 o2, format_table sample_width new o1 = (st2, Ok o2)
                 /\ format_table sample_width new o2 = (st2, Ok o2).
Proof.
  intros t st' o1.
  assert (E : format_table sample_width new t = (st', Ok o1)) by (vm_compute; reflexivity).
  split; [exact E|]. exact (format_table_refeed_fixed_point sample_width new st' t o1 E).
Defined.

(** ** C6: fenced code blocks *)

(** C6 (the code diverges from the claim): the scanner keeps no state
    about code fences, so a table written between two ["```"] lines is
    found and reformatted like any other; here the separator line of the
    fenced table is rewritten from ["|-|-|"] to its padded form. *)
Theorem format_document_formats_fenced_table :
  format_document sample_width new (text ["```"; "| fake | table |"; "|-|-|"; "```"])
  = Some (text ["```"; "| fake | table |"; "|------|-------|"; "```"]).
Proof. vm_compute. reflexivity. Qed.

(** ** C7: documents without pipes *)

(** C7 (the code diverges from the claim and from the documentation of
    format_document, which preserves all other content): [str::lines]
    drops the ['\r'] of a ["\r\n"] line ending, so a pipe-free document
    with a CRLF ending comes back with a bare ["\n"]. *)
Lemma format_document_crlf_changes :
  let d := lit "a" ++ [CR; LF] in
  ~ In PIPE d /\ format_document sample_width new d = Some (lit "a" ++ [LF])
  /\ lit "a" ++ [LF] <> d.
Proof.
  intro d. split; [|split].
  - vm_compute. intros [H|[H|[H|[]]]]; discriminate H.
  - vm_compute. reflexivity.
  - vm_compute. discriminate.
Qed.

Lemma is_candidate_no_pipe (line : str) : ~ In PIPE line -> is_candidate line = false.
Proof.
  intro H. unfold is_candidate.
  destruct (contains PIPE line) eqn:C; [apply contains_In in C; contradiction|].
  rewrite andb_false_l, orb_false_r.
  destruct (starts_with [PIPE] (trim line)) eqn:S; [|reflexivity].
  exfalso. apply H. destruct (trim line) as [|c r] eqn:E; [discriminate|].
  cbn [starts_with] in S. rewrite andb_true_r in S. apply N.eqb_eq in S. subst c.
  apply (trim_sub line). rewrite E. left. reflexivity.
Qed.

Lemma scan_verbatim (cw : char -> nat) (fuel : nat) (self : TableFormatter) (ls : list str) :
  Forall (fun l => is_candidate l = false) ls -> length ls <= fuel ->
  scan cw fuel self ls = Some (unlines ls).
Proof.
  intro H. revert fuel. induction H as [|l ls Hl _ IH]; intros fuel Hf.
  - destruct fuel; reflexivity.
  - destruct fuel as [|fuel]; cbn [length] in Hf; [lia|].
    cbn [scan]. rewrite Hl. rewrite IH by lia. unfold unlines. cbn [map concat].
    rewrite <- app_assoc. reflexivity.
Qed.

Lemma no_crlf_suffix (x y : str) : no_crlf (x ++ y) = true -> no_crlf y = true.
Proof.
  induction x as [|c x IH]; [exact (fun H => H)|]. cbn [app no_crlf].
  intro H. apply andb_prop in H. exact (IH (proj2 H)).
Qed.

Lemma no_crlf_cr (x r : str) : no_crlf (x ++ CR :: LF :: r) = false.
Proof.
  induction x as [|c x IH]; [reflexivity|]. cbn [app no_crlf]. rewrite IH. apply andb_false_r.
Qed.

Lemma strip_cr_no_crlf (x r : str) : no_crlf (x ++ LF :: r) = true -> strip_cr x = x.
Proof.
  intro H. unfold strip_cr. destruct (rev x) as [|c r'] eqn:E; [|].
  - apply (f_equal (@rev char)) in E. rewrite rev_involutive in E. subst x. reflexivity.
  - destruct (N.eqb_spec c CR) as [->|Ne]; [|reflexivity].
    apply (f_equal (@rev char)) in E. rewrite rev_involutive in E. subst x.
    cbn [rev] in H. rewrite <- app_assoc in H. cbn [app] in H.
    rewrite no_crlf_cr in H. discriminate.
Qed.

Lemma ends_with_app (c : char) (x y : str) : y <> [] -> ends_with c (x ++ y) = ends_with c y.
Proof.
  intro Hy. unfold ends_with. rewrite rev_app_distr.
  destruct (rev y) as [|d r] eqn:E; [|reflexivity].
  apply (f_equal (@rev char)) in E. rewrite rev_involutive in E. contradiction.
Qed.

Lemma unlines_lines_go (acc s : str) :
  ~ In LF acc -> no_crlf (rev acc ++ s) = true ->
  unlines (lines_go acc s) = add_final_lf (rev acc ++ s).
Proof.
  revert acc. induction s as [|c s IH]; intros acc Hacc H.
  - rewrite app_nil_r. cbn [lines_go]. destruct acc as [|a acc']; [reflexivity|].
    unfold unlines, add_final_lf. cbn [map concat]. rewrite app_nil_r.
    replace (ends_with LF (rev (a :: acc'))) with false.
    + replace (is_empty (rev (a :: acc'))) with false; [reflexivity|].
      cbn [rev]. destruct (rev acc'); reflexivity.
    + unfold ends_with. rewrite rev_involutive. symmetry. apply N.eqb_neq.
      intro E. subst a. apply Hacc. left. reflexivity.
  - cbn [lines_go]. destruct (N.eqb_spec c LF) as [->|Ne].
    + rewrite (strip_cr_no_crlf (rev acc) s H).
      assert (Hs : no_crlf s = true).
      { apply (no_crlf_suffix (rev acc ++ [LF]) s). rewrite <- app_assoc. exact H. }
      unfold unlines. cbn [map concat]. fold (unlines (lines_go [] s)).
      rewrite (IH [] (fun H0 => H0) Hs). cbn [rev app].
      unfold add_final_lf. destruct s as [|d s'].
      * cbn [ends_with is_empty]. unfold ends_with. rewrite rev_app_distr. cbn [rev app].
        rewrite N.eqb_refl. cbn [orb]. rewrite app_nil_r. reflexivity.
      * replace (rev acc ++ LF :: d :: s') with ((rev acc ++ [LF]) ++ d :: s')
          by (rewrite <- app_assoc; reflexivity).
        rewrite (ends_with_app LF (rev acc ++ [LF]) (d :: s')) by discriminate.
        replace (is_empty ((rev acc ++ [LF]) ++ d :: s')) with false
          by (destruct (rev acc); reflexivity).
        cbn [is_empty]. rewrite !orb_false_r.
        destruct (ends_with LF (d :: s')); [reflexivity|rewrite app_assoc; reflexivity].
    + rewrite IH.
      * cbn [rev]. rewrite <- app_assoc. reflexivity.
      * intros [E|E]; [congruence|contradiction].
      * cbn [rev]. rewrite <- app_assoc. exact H.
Qed.

(** X16: a document with no ['|'] and no ['\r'] right before a ['\n']
    comes back from format_document exactly, final ['\n'] or not. *)
Theorem format_document_passthrough (cw : char -> nat) (st : TableFormatter) (d : str) :
  ~ In PIPE d -> no_crlf d = true -> format_document cw st d = Some d.
Proof.
  intros Hp Hc. unfold format_document.
  rewrite scan_verbatim; [|apply Forall_forall; intros l Hl; apply is_candidate_no_pipe;
                          intro H; exact (Hp (lines_sub d l PIPE Hl H))|lia].
  unfold lines. rewrite unlines_lines_go by (try exact Hc; intros []).
  cbn [rev app]. f_equal. unfold add_final_lf.
  destruct (ends_with LF d) eqn:E; [cbn [orb negb andb]; reflexivity|].
  destruct d as [|c d']; [reflexivity|]. cbn [is_empty orb negb andb].
  change (c :: d' ++ [LF]) with ((c :: d') ++ [LF]).
  rewrite ends_with_app by discriminate. cbn [ends_with rev app]. rewrite N.eqb_refl.
  exact (removelast_last (c :: d') LF).
Qed.

Lemma format_document_passthrough_witness :
  let d := lit "a" ++ [LF] ++ lit "b" in
  ~ In PIPE d /\ no_crlf d = true /\ format_document sample_width new d = Some d.
Proof.
  intro d.
  assert (Hp : ~ In PIPE d) by (vm_compute; intros [H|[H|[H|[]]]]; discriminate H).
  assert (Hc : no_crlf d = true) by (vm_compute; reflexivity).
  split; [exact Hp|]. split; [exact Hc|].
  exact (format_document_passthrough sample_width new d Hp Hc).
Defined.

(** ** C8: the scanner's step *)

Lemma length_take_while {A} (p : A -> bool) (l : list A) : length (take_while p l) <= length l.
Proof. induction l as [|x l IH]; cbn; [lia|]. destruct (p x); cbn; lia. Qed.

Lemma try_format_table_at_length (cw : char -> nat) (self s' : TableFormatter) (rest : list str)
    (n : nat) (f : str) :
  try_format_table_at cw self rest = Some (s', Some (n, f)) -> 1 <= n <= length rest.
Proof.
  unfold try_format_table_at. pose proof (length_take_while (contains PIPE) rest) as Le.
  destruct (take_while (contains PIPE) rest) as [|b bs]; [discriminate|].
  destruct (format_table cw self (join [LF] (b :: bs))) as [s o].
  destruct o; try discriminate. intro H. injection H as _ <- _. cbn [length] in *. lia.
Qed.

Lemma scan_fuel (cw : char -> nat) (f1 f2 : nat) (self : TableFormatter) (rest : list str) :
  length rest <= f1 -> length rest <= f2 -> scan cw f1 self rest = scan cw f2 self rest.
Proof.
  revert f2 self rest. induction f1 as [|f1 IH]; intros f2 self rest H1 H2.
  - destruct rest; cbn [length] in H1; [|lia]. destruct f2; reflexivity.
  - destruct rest as [|line tl]; [destruct f2; reflexivity|].
    destruct f2 as [|f2]; cbn [length] in H2; [lia|]. cbn [length] in H1.
    cbn [scan]. destruct (is_candidate line); [|rewrite (IH f2 self tl) by lia; reflexivity].
    destruct (try_format_table_at cw self (line :: tl)) as [[s' [[n f]|]]|] eqn:T.
    + apply try_format_table_at_length in T. cbn [length] in T.
      rewrite (IH f2 s' (skipn n (line :: tl))); [reflexivity| |];
        rewrite length_skipn; cbn [length]; lia.
    + rewrite (IH f2 s' tl) by lia. reflexivity.
    + reflexivity.
Qed.

(** C8: on a candidate line, let [block] be the maximal run of
    ['|']-holding lines starting there (at least that line). If
    format_table fails on the block, the scanner emits that one line and a
    newline and resumes at the next line; if it succeeds, the scanner
    emits the formatted block and resumes after its last line. The scanner
    runs with enough fuel for the remaining lines, as in format_document,
    and format_document never fails. *)
Theorem format_document_scan_step (cw : char -> nat) (self : TableFormatter) (line : str)
    (tl : list str) :
  is_candidate line = true ->
  let block := take_while (contains PIPE) (line :: tl) in
  1 <= length block /\
  (forall s' e, format_table cw self (join [LF] block) = (s', Err e) ->
     scan cw (length (line :: tl)) self (line :: tl)
     = option_map (fun out => line ++ [LF] ++ out) (scan cw (length tl) s' tl)) /\
  (forall s' f, format_table cw self (join [LF] block) = (s', Ok f) ->
     let rest := skipn (length block) (line :: tl) in
     scan cw (length (line :: tl)) self (line :: tl)
     = option_map (fun out => f ++ out) (scan cw (length rest) s' rest)) /\
  (forall st d, format_document cw st d <> None).
Proof.
  intros Hc block.
  assert (Hl : contains PIPE line = true).
  { unfold is_candidate in Hc. apply orb_prop in Hc as [Hc|Hc].
    - apply starts_with_pipe_contains. exact Hc.
    - apply andb_prop in Hc. exact (proj1 Hc). }
  assert (Eb : block = line :: take_while (contains PIPE) tl) by (unfold block; cbn; rewrite Hl; reflexivity).
  split; [rewrite Eb; cbn; lia|]. split; [|split].
  - intros s' e F. cbn [length scan]. rewrite Hc. unfold try_format_table_at.
    fold block. rewrite Eb in F |- *. rewrite F.
    destruct (scan cw (length tl) s' tl); reflexivity.
  - intros s' f F rest. cbn [length scan]. rewrite Hc. unfold try_format_table_at.
    fold block. rewrite Eb in F. rewrite Eb, F. rewrite <- Eb. fold rest.
    rewrite (scan_fuel cw (length tl) (length rest) s' rest); [reflexivity| |reflexivity].
    unfold rest. rewrite length_skipn, Eb. cbn [length]. lia.
  - exact (format_document_some cw).
Qed.

Lemma format_document_scan_step_witness :
  let line := lit "| a |" in
  let tl := [lit "|-|"; lit "text"] in
  is_candidate line = true /\
  let block := take_while (contains PIPE) (line :: tl) in
  1 <= length block /\
  (forall s' e, format_table sample_width new (join [LF] block) = (s', Err e) ->
     scan sample_width (length (line :: tl)) new (line :: tl)
     = option_map (fun out => line ++ [LF] ++ out) (scan sample_width (length tl) s' tl)) /\
  (forall s' f, format_table sample_width new (join [LF] block) = (s', Ok f) ->
     let rest := skipn (length block) (line :: tl) in
     scan sample_width (length (line :: tl)) new (line :: tl)
     = option_map (fun out => f ++ out) (scan sample_width (length rest) s' rest)) /\
  (forall st d, format_document sample_width st d <> None).
Proof.
  intros line tl.
  assert (Hc : is_candidate line = true) by (vm_compute; reflexivity).
  split; [exact Hc|]. exact (format_document_scan_step sample_width new line tl Hc).
Defined.

Lemma format_table_too_large_witness :
  let row := [PIPE] ++ concat (repeat [97%N; PIPE] 1001) in
  let t := row ++ [LF] ++ row in
  let st1 := fst (import_table sample_width new t) in
  import_table sample_width new t = (st1, Ok tt) /\ 2 <= length (cells st1) /\
  let rows := N.of_nat (length (cells st1)) in
  let cols := N.of_nat (length (column_widths st1)) in
  ((exists r c mr mc, snd (format_table sample_width new t) = Err (TableTooLarge r c mr mc))
   <-> (MAX_ROWS < rows \/ MAX_COLS < cols \/ MAX_CELLS < rows * cols)%N) /\
  ((MAX_ROWS < rows \/ MAX_COLS < cols \/ MAX_CELLS < rows * cols)%N ->
   snd (format_table sample_width new t) = Err (TableTooLarge rows cols MAX_ROWS MAX_COLS)).
Proof.
  intros row t st1.
  assert (I : import_table sample_width new t = (st1, Ok tt)) by (vm_compute; reflexivity).
  assert (L : 2 <= length (cells st1)) by (apply Nat.leb_le; vm_compute; reflexivity).
  split; [exact I|]. split; [exact L|].
  exact (format_table_too_large sample_width new st1 t tt I L).
Defined.

(** ** Row counts and the [MissingSeparator] error *)

Lemma filter_none {A} (f : A -> bool) (l : list A) :
  (forall x, In x l -> f x = false) -> filter f l = [].
Proof.
  induction l as [|a l IH]; intro H; simpl; [reflexivity|].
  rewrite (H a (or_introl eq_refl)). apply IH. intros x Hx. apply H. now right.
Qed.

Lemma parse_rows_length (i : nat) (rows : list str) :
  length (parse_rows i rows) = length (filter (contains PIPE) rows).
Proof.
  revert i. induction rows as [|l r IH]; intro i; simpl; [reflexivity|].
  destruct (contains PIPE l); simpl; rewrite IH; reflexivity.
Qed.

Lemma filter_skip_while (l : list str) :
  filter (contains PIPE) (skip_while (fun line => negb (contains PIPE line)) l)
  = filter (contains PIPE) l.
Proof.
  induction l as [|a l IH]; simpl; [reflexivity|].
  destruct (contains PIPE a) eqn:E; simpl; [rewrite E; reflexivity|exact IH].
Qed.

Lemma remove_edges_length (cw : char -> nat) (self : TableFormatter) :
  length (cells (remove_empty_edge_columns cw self)) = length (cells self).
Proof.
  unfold remove_empty_edge_columns, get_column_widths. cbn [cells column_widths].
  destruct (widths_of cw (cells self)) as [|w0 ws0]; cbn [cells column_widths]; [reflexivity|].
  destruct (w0 =? 0); cbn [cells column_widths].
  - destruct (widths_of cw _) as [|w1 ws1]; cbn [cells column_widths]; [apply length_map|].
    destruct (_ =? 0); cbn [cells column_widths]; rewrite !length_map; reflexivity.
  - destruct (_ =? 0); cbn [cells column_widths]; rewrite ?length_map; reflexivity.
Qed.

Lemma import_rows (cw : char -> nat) (t : str) (st1 : TableFormatter) (u : unit) :
  import_table cw new t = (st1, Ok u) ->
  length (cells st1) = length (filter (contains PIPE) (lines t)).
Proof.
  unfold import_table. rewrite <- filter_skip_while.
  destruct (skip_while _ (lines t)) as [|l r]; [discriminate|].
  intro H. injection H as <- _. rewrite remove_edges_length. exact (parse_rows_length 0 (l :: r)).
Qed.

Lemma import_no_pipe (cw : char -> nat) (t : str) (st1 : TableFormatter) (e : TableError) :
  import_table cw new t = (st1, Err e) -> filter (contains PIPE) (lines t) = [].
Proof.
  unfold import_table. rewrite <- filter_skip_while.
  destruct (skip_while _ (lines t)); [reflexivity|discriminate].
Qed.

Lemma import_ok_pipe (cw : char -> nat) (t : str) (st1 : TableFormatter) (u : unit) :
  import_table cw new t = (st1, Ok u) -> 1 <= length (filter (contains PIPE) (lines t)).
Proof.
  intro H. destruct (import_table_result cw new t) as [E|[_ (l & Hl & Hp)]].
  - rewrite H in E. discriminate.
  - assert (Hf : In l (filter (contains PIPE) (lines t))) by (apply filter_In; auto).
    destruct (filter (contains PIPE) (lines t)); [contradiction|simpl; lia].
Qed.

Lemma trim_empty_no_pipe (t : str) :
  is_empty (trim t) = true -> filter (contains PIPE) (lines t) = [].
Proof.
  intro H. apply filter_none. intros l Hl.
  destruct (contains PIPE l) eqn:E; [|reflexivity]. exfalso.
  apply contains_In in E. pose proof (lines_sub t l PIPE Hl E) as Ht.
  apply (contains_pipe_trim_nonempty t); [now apply contains_In|].
  destruct (trim t); [reflexivity|discriminate].
Qed.

(** X1: format_table fails with MissingSeparator exactly when one line
    of the input, as str::lines splits it, contains a pipe. *)
Theorem format_table_missing_separator_iff (cw : char -> nat) (st : TableFormatter) (t : str) :
  snd (format_table cw st t) = Err MissingSeparator
  <-> length (filter (contains PIPE) (lines t)) = 1.
Proof.
  unfold format_table.
  destruct (is_empty (trim t)) eqn:Em.
  { rewrite (trim_empty_no_pipe t Em). split; discriminate. }
  destruct (import_table cw (mkFormatter [] []) t) as [st1 [u|e|]] eqn:I.
  - pose proof (import_rows cw t st1 u I) as R. pose proof (import_ok_pipe cw t st1 u I) as P.
    rewrite <- R in *.
    destruct (length (cells st1) <? 2) eqn:L.
    + apply Nat.ltb_lt in L. split; [intros _; lia|reflexivity].
    + apply Nat.ltb_ge in L. split; [|lia]. intro H. exfalso. revert H.
      repeat match goal with |- context [if ?b then _ else _] => destruct b end;
        cbn [snd]; try discriminate.
      rewrite pad_after_add_missing. discriminate.
  - rewrite (import_no_pipe cw t st1 e I). split; [|discriminate].
    destruct (import_table_result cw new t) as [E|[E _]]; unfold new in E; rewrite I in E;
      simpl in E; inversion E; subst; discriminate.
  - destruct (import_table_result cw new t) as [E|[E _]]; unfold new in E; rewrite I in E;
      discriminate.
Qed.

(** X2: when format_table succeeds, its output has one line per line of
    the input that contains a pipe. *)
Theorem format_table_line_count (cw : char -> nat) (st st' : TableFormatter) (t out : str) :
  format_table cw st t = (st', Ok out) ->
  length (lines out) = length (filter (contains PIPE) (lines t)).
Proof.
  intro H. pose proof H as H'.
  destruct (format_table_ok_inv _ _ _ _ _ H) as (st1 & u & I & _ & _ & _ & E & _).
  destruct (format_table_ok_renderable _ _ _ _ _ H') as [-> R].
  destruct st' as [C W]. cbn [cells column_widths] in *.
  rewrite (lines_render_output C W _ R).
  destruct (render_lines_props C _ R) as [_ ->].
  injection E as -> _. rewrite length_padded_rows.
  unfold add_missing_cell_columns, get_column_widths. cbn [cells]. rewrite length_map.
  exact (import_rows cw t st1 u I).
Qed.

Lemma format_table_line_count_witness :
  let st' := fst (format_table sample_width new sample_table) in
  let out := render_output st' in
  format_table sample_width new sample_table = (st', Ok out) /\
  length (lines out) = length (filter (contains PIPE) (lines sample_table)).
Proof.
  intros st' out.
  assert (E : format_table sample_width new sample_table = (st', Ok out))
    by (vm_compute; reflexivity).
  split; [exact E|].
  exact (format_table_line_count sample_width new st' sample_table out E).
Defined.

(** ** The padded cells of a successful [format_table] *)

Lemma map_nth_seq {A B} (f : A -> B) (W : list A) (d : A) :
  map (fun j => f (nth j W d)) (seq 0 (length W)) = map f W.
Proof.
  induction W as [|a W IH]; simpl; [reflexivity|]. f_equal.
  rewrite <- seq_shift, map_map. exact IH.
Qed.

Lemma all_dash (c : str) : Forall (fun x => x = DASH) c -> c = repeat DASH (length c).
Proof.
  induction 1 as [|x l Hx _ IH]; simpl; [reflexivity|]. rewrite Hx, <- IH. reflexivity.
Qed.

Lemma padded_row_widths (cw : char -> nat) (W : list nat) (ch : char) (col : nat) (r : list str) :
  cw ch = 1 ->
  (forall j c, nth_error r j = Some c -> width cw c <= nth (col + j) W 0) ->
  map (width cw) (padded_row cw W ch col r) = map (fun j => nth j W 0) (seq col (length r)).
Proof.
  intro Hc. revert col. induction r as [|c r IH]; intros col H; simpl; [reflexivity|]. f_equal.
  - rewrite width_app, width_repeat, Hc. specialize (H 0 c eq_refl).
    rewrite Nat.add_0_r in H. lia.
  - apply IH. intros j c' Hj. replace (S col + j) with (col + S j) by lia. exact (H (S j) c' Hj).
Qed.

Lemma padded_row_dash (cw : char -> nat) (W : list nat) (col : nat) (r : list str) :
  cw DASH = 1 -> Forall (Forall (fun x => x = DASH)) r ->
  (forall j c, nth_error r j = Some c -> width cw c <= nth (col + j) W 0) ->
  padded_row cw W DASH col r = map (fun j => repeat DASH (nth j W 0)) (seq col (length r)).
Proof.
  intro HD. revert col. induction r as [|c r IH]; intros col Hr H; simpl; [reflexivity|].
  inversion Hr as [|? ? Hc Hr']; subst. f_equal.
  - specialize (H 0 c eq_refl). rewrite Nat.add_0_r in H.
    pose proof (all_dash c Hc) as Ec. remember (length c) as k. rewrite Ec in H |- *.
    rewrite width_repeat, HD, <- repeat_app in *. f_equal. lia.
  - apply IH; [exact Hr'|]. intros j c' Hj. replace (S col + j) with (col + S j) by lia. exact (H (S j) c' Hj).
Qed.

Lemma added_cell_le (cw : char -> nat) (rows : list (list str)) (row : list str) (k j : nat)
    (c : str) :
  In row rows -> nth_error (row ++ repeat [] k) j = Some c ->
  width cw c <= nth j (widths_of cw rows) 0.
Proof.
  intros Hr Hj. apply (nth_error_nth _ _ []) in Hj.
  rewrite nth_app_repeat_nil in Hj. subst c. exact (widths_of_cell_le cw rows row j Hr).
Qed.

Lemma width_join (cw : char -> nat) (sep : str) (r : list str) :
  r <> [] ->
  width cw (join sep r) = list_sum (map (width cw) r) + (length r - 1) * width cw sep.
Proof.
  induction r as [|x [|y r] IH]; intro Hne; [contradiction|simpl; lia|].
  change (join sep (x :: y :: r)) with (x ++ sep ++ join sep (y :: r)).
  rewrite !width_app, IH by discriminate. cbn [map list_sum fold_right length]. lia.
Qed.

Section LineWidths.

Variable cw : char -> nat.
Hypothesis HS : cw SPACE = 1.
Hypothesis HD : cw DASH = 1.
Hypothesis HP : cw PIPE = 1.

Lemma row_line_width (W : list nat) (r : list str) :
  1 <= length W -> map (width cw) r = W ->
  width cw (row_line r) = 3 * length W + 1 + list_sum W.
Proof.
  intros Hn Hr. assert (Hl : length r = length W) by (rewrite <- Hr; symmetry; apply length_map).
  unfold row_line. rewrite !width_app, width_join by (intro E; subst r; subst W; simpl in Hn; lia).
  rewrite Hr, Hl. simpl. rewrite HS, HP. lia.
Qed.

Lemma sep_line_width (W : list nat) (r : list str) :
  1 <= length W -> map (width cw) r = W ->
  width cw (sep_line r) = 3 * length W + 1 + list_sum W.
Proof.
  intros Hn Hr. assert (Hl : length r = length W) by (rewrite <- Hr; symmetry; apply length_map).
  unfold sep_line. rewrite !width_app, width_join by (intro E; subst r; subst W; simpl in Hn; lia).
  rewrite Hr, Hl. simpl. rewrite HD, HP. lia.
Qed.

Lemma render_lines_width (C : list (list str)) (W : list nat) :
  1 <= length W -> Forall (fun r => map (width cw) r = W) C ->
  Forall (fun l => width cw l = 3 * length W + 1 + list_sum W) (render_lines C).
Proof.
  intros Hn HC. destruct C as [|r0 [|r1 rest]]; cbn [render_lines]; [constructor|constructor|].
  apply Forall_cons_iff in HC as [H0 HC']. apply Forall_cons_iff in HC' as [H1 HC''].
  constructor; [now apply row_line_width|]. constructor; [now apply sep_line_width|].
  apply Forall_map. eapply Forall_impl; [|exact HC'']. intros r Hr. now apply row_line_width.
Qed.

End LineWidths.

(** X3: when format_table succeeds, its separator row (row 1) holds, for
    each column, a run of dashes as long as the column's width (the dash
    having display width 1, as in unicode-width). *)
Theorem format_table_separator_row (cw : char -> nat) (HD : cw DASH = 1)
    (st st' : TableFormatter) (t out : str) :
  format_table cw st t = (st', Ok out) ->
  nth_error (cells st') 1 = Some (map (fun w => repeat DASH w) (column_widths st')).
Proof.
  intro H. destruct (format_table_ok_inv _ _ _ _ _ H) as (st1 & u & I & L & S & Sep & -> & _).
  destruct (is_separator_row_spec st1 Sep) as (r1 & E1 & Ne1 & D1).
  cbn [cells column_widths].
  set (W := widths_of cw (cells st1)).
  set (k := length W - length r1).
  assert (Hw : column_widths (add_missing_cell_columns (get_column_widths cw st1)) = W)
    by reflexivity.
  assert (E2 : nth_error (cells (add_missing_cell_columns (get_column_widths cw st1))) 1
               = Some (r1 ++ repeat [] k)).
  { rewrite add_missing_cells, nth_error_map, E1. reflexivity. }
  rewrite Hw, (padded_rows_nth cw W 0 _ 1 _ E2). cbn [pad_char Nat.add Nat.eqb]. f_equal.
  rewrite padded_row_dash.
  - rewrite length_app, repeat_length.
    pose proof (widths_of_row_le cw (cells st1) r1 (nth_error_In _ _ E1)) as Hle.
    replace (length r1 + k) with (length W) by (unfold k; fold W in Hle; lia).
    apply map_nth_seq.
  - exact HD.
  - apply Forall_app. split.
    + eapply Forall_impl; [|exact D1]. intros c [_ Hc]. exact Hc.
    + apply Forall_forall. intros c Hc. apply repeat_spec in Hc. subst. constructor.
  - intros j c Hj. exact (added_cell_le cw (cells st1) r1 k j c (nth_error_In _ _ E1) Hj).
Qed.

Lemma format_table_separator_row_witness :
  let st' := fst (format_table sample_width new sample_table) in
  let out := render_output st' in
  sample_width DASH = 1 /\ format_table sample_width new sample_table = (st', Ok out) /\
  nth_error (cells st') 1 = Some (map (fun w => repeat DASH w) (column_widths st')).
Proof.
  intros st' out.
  assert (E : format_table sample_width new sample_table = (st', Ok out))
    by (vm_compute; reflexivity).
  assert (HD : sample_width DASH = 1) by reflexivity.
  split; [exact HD|]. split; [exact E|].
  exact (format_table_separator_row sample_width HD new st' sample_table out E).
Defined.

(** X4: when format_table succeeds, every line of its output has the same
    display width, [3 n + 1] plus the sum of the [n] column widths, the
    space, the dash and the pipe having display width 1 (as in
    unicode-width). *)
Theorem format_table_line_widths (cw : char -> nat)
    (HS : cw SPACE = 1) (HD : cw DASH = 1) (HP : cw PIPE = 1)
    (st st' : TableFormatter) (t out : str) :
  format_table cw st t = (st', Ok out) ->
  Forall (fun l => width cw l = 3 * length (column_widths st') + 1 + list_sum (column_widths st'))
         (lines out).
Proof.
  intro H. pose proof H as H'.
  destruct (format_table_ok_renderable _ _ _ _ _ H') as [-> R].
  destruct (format_table_ok_inv _ _ _ _ _ H) as (st1 & u & I & L & S & Sep & E & _).
  destruct st' as [C W]. injection E as EC EW.
  cbn [cells column_widths] in *.
  rewrite (lines_render_output C W _ R).
  apply render_lines_width; [exact HS|exact HD|exact HP|destruct R as (_ & ? & _); exact H0|].
  subst C W. apply padded_rows_Forall. intros i row Hi.
  rewrite nth_error_map in Hi.
  destruct (nth_error (cells st1) i) as [r|] eqn:Er; [|discriminate].
  injection Hi as <-. set (k := length (widths_of cw (cells st1)) - length r).
  rewrite padded_row_widths.
  - rewrite length_app, repeat_length.
    pose proof (widths_of_row_le cw (cells st1) r (nth_error_In _ _ Er)) as Hle.
    replace (length r + k) with (length (widths_of cw (cells st1))) by (unfold k; lia).
    exact (eq_trans (map_nth_seq (fun x => x) _ 0) (map_id _)).
  - unfold pad_char. destruct (_ =? 1); assumption.
  - intros j c Hj. exact (added_cell_le cw (cells st1) r k j c (nth_error_In _ _ Er) Hj).
Qed.

Lemma format_table_line_widths_witness :
  let st' := fst (format_table sample_width new sample_table) in
  let out := render_output st' in
  sample_width SPACE = 1 /\ sample_width DASH = 1 /\ sample_width PIPE = 1 /\
  format_table sample_width new sample_table = (st', Ok out) /\
  Forall (fun l => width sample_width l
                   = 3 * length (column_widths st') + 1 + list_sum (column_widths st'))
         (lines out).
Proof.
  intros st' out.
  assert (E : format_table sample_width new sample_table = (st', Ok out))
    by (vm_compute; reflexivity).
  assert (HS : sample_width SPACE = 1) by reflexivity.
  assert (HD : sample_width DASH = 1) by reflexivity.
  assert (HP : sample_width PIPE = 1) by reflexivity.
  split; [exact HS|]. split; [exact HD|]. split; [exact HP|]. split; [exact E|].
  exact (format_table_line_widths sample_width HS HD HP new st' sample_table out E).
Defined.

(** ** Re-importing the output *)

Lemma parse_cell_trimmed (i : nat) (p : str) : trim (parse_cell i p) = parse_cell i p.
Proof. unfold parse_cell. destruct (_ && _ && _); [reflexivity|apply trim_idem]. Qed.

Lemma parse_rows_trimmed (i : nat) (rows : list str) :
  Forall (Forall (fun c => trim c = c)) (parse_rows i rows).
Proof.
  revert i. induction rows as [|l r IH]; intro i; simpl; [constructor|].
  destruct (contains PIPE l); simpl; [|apply IH]. constructor; [|apply IH].
  apply Forall_forall. intros c Hc. apply in_map_iff in Hc as (p & <- & _).
  apply parse_cell_trimmed.
Qed.

Lemma import_trimmed (cw : char -> nat) (t : str) (st1 : TableFormatter) (u : unit) :
  import_table cw new t = (st1, Ok u) -> Forall (Forall (fun c => trim c = c)) (cells st1).
Proof.
  unfold import_table. destruct (skip_while _ (lines t)) as [|l r]; [discriminate|].
  intro H. injection H as <- _. apply remove_edges_Forall. exact (parse_rows_trimmed 0 (l :: r)).
Qed.

Lemma normalize_nth (C : list (list str)) (i : nat) :
  2 <= length C -> i <> 1 -> nth_error (normalize C) i = option_map (map trim) (nth_error C i).
Proof.
  intros L Hi. destruct C as [|r0 [|r1 rest]]; cbn [length] in L; try lia.
  destruct i as [|[|i]]; [reflexivity|lia|].
  unfold normalize. cbn [nth_error]. apply nth_error_map.
Qed.

Lemma trim_padded_trimmed (cw : char -> nat) (W : list nat) (r : list str) :
  Forall (fun c => trim c = c) r -> map trim (padded_row cw W SPACE 0 r) = r.
Proof.
  intro Hr. assert (Hm : map trim r = r).
  { transitivity (map (fun c => c) r); [|apply map_id]. apply map_ext_in.
    intros c Hc. rewrite Forall_forall in Hr. exact (Hr c Hc). }
  transitivity (map trim (padded_row cw W SPACE 0 (map trim r))); [now rewrite Hm|].
  rewrite trim_padded_row. exact Hm.
Qed.

(** X5: when format_table succeeds, importing its output (as format_table
    does with its input) succeeds and gives back, row for row, the rows the
    input was imported to, except the separator row: each row comes back
    with empty cells appended up to the column count, its cells unchanged. *)
Theorem format_table_reimport (cw : char -> nat) (st st' : TableFormatter) (t out : str) :
  format_table cw st t = (st', Ok out) ->
  let P := cells (fst (import_table cw new t)) in
  let Q := cells (fst (import_table cw new out)) in
  let n := length (column_widths st') in
  snd (import_table cw new out) = Ok tt /\ length Q = length P /\
  forall i row, i <> 1 -> nth_error P i = Some row ->
    nth_error Q i = Some (row ++ repeat [] (n - length row)).
Proof.
  intro H. pose proof H as H'.
  destruct (format_table_ok_renderable _ _ _ _ _ H') as [-> R].
  destruct (format_table_ok_inv _ _ _ _ _ H) as (st1 & u & I & L & S & Sep & E & _).
  pose proof (import_trimmed cw t st1 u I) as Tr.
  destruct st' as [C W]. cbn [cells column_widths] in *. cbv zeta.
  rewrite I, (import_render cw C _ W R). cbn [fst snd cells].
  pose proof (proj1 (normalize_props C _ R)) as LN. destruct R as (LC & _).
  injection E as EC EW. split; [reflexivity|]. split.
  - rewrite LN, EC, length_padded_rows, length_map. reflexivity.
  - intros i row Hi Er. rewrite (normalize_nth C i LC Hi), EC.
    rewrite (padded_rows_nth cw _ 0 _ i (row ++ repeat [] (length W - length row))).
    + cbn [option_map]. f_equal. unfold pad_char. cbn [Nat.add].
      replace (i =? 1) with false by (symmetry; now apply Nat.eqb_neq).
      apply trim_padded_trimmed. apply Forall_app. split.
      * rewrite Forall_forall in Tr. exact (Tr row (nth_error_In _ _ Er)).
      * apply Forall_forall. intros c Hc. apply repeat_spec in Hc. now subst.
    + rewrite nth_error_map, Er, EW. reflexivity.
Qed.

Lemma format_table_reimport_witness :
  let st' := fst (format_table sample_width new sample_table) in
  let out := render_output st' in
  format_table sample_width new sample_table = (st', Ok out) /\
  (let P := cells (fst (import_table sample_width new sample_table)) in
   let Q := cells (fst (import_table sample_width new out)) in
   let n := length (column_widths st') in
   snd (import_table sample_width new out) = Ok tt /\ length Q = length P /\
   forall i row, i <> 1 -> nth_error P i = Some row ->
     nth_error Q i = Some (row ++ repeat [] (n - length row))).
Proof.
  intros st' out.
  assert (E : format_table sample_width new sample_table = (st', Ok out))
    by (vm_compute; reflexivity).
  split; [exact E|].
  exact (format_table_reimport sample_width new st' sample_table out E).
Defined.

(** ** A separator line with other visible characters *)

Lemma split_go_In (sep : char) (acc s : str) (x : char) :
  x <> sep -> In x acc \/ In x s -> exists p, In p (split_go sep acc s) /\ In x p.
Proof.
  revert acc. induction s as [|c r IH]; intros acc Hx H; simpl.
  - destruct H as [H|[]]. exists (rev acc). split; [now left|now apply in_rev_r].
  - destruct (N.eqb_spec c sep) as [E|E].
    + destruct H as [H|[<-|H]]; [|contradiction|].
      * exists (rev acc). split; [now left|now apply in_rev_r].
      * destruct (IH [] Hx (or_intror H)) as (p & Hp & Hxp). exists p. split; [now right|exact Hxp].
    + apply IH; [exact Hx|]. destruct H as [H|[<-|H]]; [left; now right|left; now left|now right].
Qed.

Lemma trim_start_keeps (s : str) (x : char) :
  is_whitespace x = false -> In x s -> In x (trim_start s).
Proof.
  induction s as [|c r IH]; intros Hw H; simpl; [exact H|].
  destruct (is_whitespace c) eqn:Ec; [|exact H].
  destruct H as [<-|H]; [congruence|]. now apply IH.
Qed.

Lemma trim_keeps (s : str) (x : char) : is_whitespace x = false -> In x s -> In x (trim s).
Proof.
  intros Hw H. unfold trim, trim_end. apply in_rev_r, trim_start_keeps; [exact Hw|].
  apply in_rev_r, trim_start_keeps; assumption.
Qed.

Lemma width_In (cw : char -> nat) (s : str) (x : char) : In x s -> cw x <= width cw s.
Proof.
  induction s as [|c r IH]; intros H; simpl; [contradiction|].
  destruct H as [<-|H]; [lia|]. specialize (IH H). lia.
Qed.

Lemma parse_cell_keeps (i : nat) (p : str) (x : char) :
  x <> DASH -> is_whitespace x = false -> In x p -> In x (parse_cell i p).
Proof.
  intros Hd Hw H. pose proof (trim_keeps p x Hw H) as Ht. unfold parse_cell.
  destruct ((i =? 1) && forallb (N.eqb DASH) (trim p) && negb (is_empty (trim p))) eqn:E;
    [|exact Ht].
  apply andb_true_iff in E as [E _]. apply andb_true_iff in E as [_ E].
  rewrite forallb_forall in E. apply E, N.eqb_eq in Ht. congruence.
Qed.

Lemma parse_rows_nth (rows : list str) (i j : nat) (l : str) :
  nth_error (filter (contains PIPE) rows) j = Some l ->
  exists k, nth_error (parse_rows i rows) j = Some (map (parse_cell k) (split PIPE l)).
Proof.
  revert i j. induction rows as [|a r IH]; intros i j H; simpl in *; [destruct j; discriminate|].
  destruct (contains PIPE a); simpl; [|now apply IH].
  destruct j as [|j]; simpl in *; [injection H as <-; now exists i|now apply IH].
Qed.

Lemma In_removelast_nth {A} (l : list A) (j : nat) (d : A) :
  S j < length l -> In (nth j l d) (removelast l).
Proof.
  revert j. induction l as [|a l IH]; intros j H; simpl in *; [lia|].
  destruct l as [|b l]; [simpl in H; lia|].
  destruct j as [|j]; [now left|right; apply IH; simpl in *; lia].
Qed.

Lemma drop_head_keeps (cw : char -> nat) (rows : list (list str)) (row : list str) (c : str) :
  nth 0 (widths_of cw rows) 0 = 0 -> In row rows -> In c row -> 0 < width cw c ->
  In c (match row with [] => [] | _ :: r => r end).
Proof.
  intros H0 Hr Hc Hw. apply In_nth_error in Hc as [j Hj].
  destruct row as [|a r]; [destruct j; discriminate|].
  destruct j as [|j]; simpl in Hj.
  - injection Hj as ->. pose proof (widths_of_cell_le cw rows (c :: r) 0 Hr) as Hle.
    simpl in Hle. lia.
  - exact (nth_error_In _ _ Hj).
Qed.

Lemma drop_last_keeps (cw : char -> nat) (rows : list (list str)) (row : list str) (c : str) :
  let W := widths_of cw rows in
  nth (length W - 1) W 0 = 0 -> In row rows -> In c row -> 0 < width cw c ->
  In c (if length row =? length W then removelast row else row).
Proof.
  intros W H0 Hr Hc Hw. destruct (length row =? length W) eqn:E; [|exact Hc].
  apply Nat.eqb_eq in E. apply In_nth_error in Hc as [j Hj].
  pose proof (nth_error_Some row j) as Hlt. rewrite Hj in Hlt.
  assert (Hj' : j < length row) by (apply Hlt; discriminate).
  apply (nth_error_nth _ _ []) in Hj. subst c.
  destruct (Nat.eq_dec j (length W - 1)) as [->|Ne].
  - pose proof (widths_of_cell_le cw rows row (length W - 1) Hr) as Hle. fold W in Hle. lia.
  - apply In_removelast_nth. lia.
Qed.

Lemma remove_edges_keeps (cw : char -> nat) (self : TableFormatter) (i : nat) (row : list str)
    (c : str) :
  nth_error (cells self) i = Some row -> In c row -> 0 < width cw c ->
  exists row', nth_error (cells (remove_empty_edge_columns cw self)) i = Some row'
               /\ In c row'.
Proof.
  intros Hi Hc Hw. unfold remove_empty_edge_columns, get_column_widths. cbn [cells column_widths].
  set (tl' := fun row : list str => match row with [] => [] | _ :: r => r end).
  set (dl := fun (n : nat) (row : list str) => if length row =? n then removelast row else row).
  assert (Last : forall rows i row, nth_error rows i = Some row -> In c row ->
            nth (length (widths_of cw rows) - 1) (widths_of cw rows) 0 = 0 ->
            nth_error (map (dl (length (widths_of cw rows))) rows) i
            = Some (dl (length (widths_of cw rows)) row)
            /\ In c (dl (length (widths_of cw rows)) row)).
  { intros rows i' row' Hi' Hc' H0. rewrite nth_error_map, Hi'. split; [reflexivity|].
    exact (drop_last_keeps cw rows row' c H0 (nth_error_In _ _ Hi') Hc' Hw). }
  destruct (widths_of cw (cells self)) as [|w0 ws0] eqn:E0; [eauto|].
  destruct (w0 =? 0) eqn:Ew0; cbn [cells column_widths].
  - assert (H1 : nth_error (map tl' (cells self)) i = Some (tl' row) /\ In c (tl' row)).
    { rewrite nth_error_map, Hi. split; [reflexivity|].
      apply (drop_head_keeps cw (cells self)); [|exact (nth_error_In _ _ Hi)|exact Hc|exact Hw].
      rewrite E0. apply Nat.eqb_eq. exact Ew0. }
    destruct H1 as [H1 H1c].
    destruct (widths_of cw (map tl' (cells self))) as [|w1 ws1] eqn:E1;
      cbn [cells column_widths]; [eauto|].
    destruct (nth (length (w1 :: ws1) - 1) (w1 :: ws1) 0 =? 0) eqn:El;
      cbn [cells column_widths]; [|eauto].
    apply Nat.eqb_eq in El. rewrite <- E1 in El.
    destruct (Last _ _ _ H1 H1c El) as [L1 L2]. rewrite E1 in L1, L2. eauto.
  - destruct (nth (length (w0 :: ws0) - 1) (w0 :: ws0) 0 =? 0) eqn:El;
      cbn [cells column_widths]; [|eauto].
    apply Nat.eqb_eq in El. rewrite <- E0 in El.
    destruct (Last _ _ _ Hi Hc El) as [L1 L2]. rewrite E0 in L1, L2. eauto.
Qed.

Lemma import_cells (cw : char -> nat) (t : str) (st1 : TableFormatter) (u : unit) :
  import_table cw new t = (st1, Ok u) ->
  st1 = remove_empty_edge_columns cw
          (mkFormatter (parse_rows 0 (skip_while (fun line => negb (contains PIPE line)) (lines t))) []).
Proof.
  unfold import_table. destruct (skip_while _ (lines t)) as [|l r]; [discriminate|].
  intro H. injection H as <- _. reflexivity.
Qed.

(** X6: if the second line of the input that contains a pipe also holds a
    character other than the dash and the pipe that is not white space and
    has a non-zero display width (such as the [':'] of a column alignment
    marker), format_table returns an error. *)
Theorem format_table_separator_rejects (cw : char -> nat) (st : TableFormatter) (t l : str)
    (x : char) :
  nth_error (filter (contains PIPE) (lines t)) 1 = Some l -> In x l ->
  x <> DASH -> x <> PIPE -> is_whitespace x = false -> 0 < cw x ->
  exists e, snd (format_table cw st t) = Err e.
Proof.
  intros Hl Hx Hd Hp Hws Hcw.
  rewrite <- filter_skip_while in Hl.
  destruct (parse_rows_nth _ 0 1 l Hl) as [k Hk].
  destruct (split_go_In PIPE [] l x Hp (or_intror Hx)) as (p & Hpin & Hxp).
  pose proof (parse_cell_keeps k p x Hd Hws Hxp) as Hxc.
  assert (Hin : In (parse_cell k p) (map (parse_cell k) (split PIPE l))) by now apply in_map.
  assert (Hw : 0 < width cw (parse_cell k p)) by (pose proof (width_In cw _ _ Hxc); lia).
  unfold format_table.
  destruct (is_empty (trim t)); [eexists; reflexivity|].
  destruct (import_table cw (mkFormatter [] []) t) as [st1 [u|e|]] eqn:I; [|eexists; reflexivity|].
  2: { destruct (import_table_result cw new t) as [E|[E _]]; unfold new in E; rewrite I in E;
       simpl in E; discriminate. }
  destruct (length (cells st1) <? 2); [eexists; reflexivity|].
  destruct (_ || _ || _)%N; [eexists; reflexivity|].
  destruct (is_separator_row st1 1) eqn:Sep; [|eexists; reflexivity].
  exfalso. pose proof (import_cells cw t st1 u I) as Est1.
  destruct (remove_edges_keeps cw
              (mkFormatter (parse_rows 0 (skip_while (fun line => negb (contains PIPE line))
                                                     (lines t))) [])
              1 _ _ Hk Hin Hw) as (row' & Er & Hc').
  rewrite <- Est1 in Er.
  destruct (is_separator_row_spec st1 Sep) as (r1 & E1 & _ & D1).
  rewrite Er in E1. injection E1 as <-.
  rewrite Forall_forall in D1. destruct (D1 _ Hc') as [_ Dc].
  rewrite Forall_forall in Dc. exact (Hd (Dc x Hxc)).
Qed.

Lemma format_table_separator_rejects_witness :
  let t := text ["| a | b |"; "|:-|-:|"] in
  nth_error (filter (contains PIPE) (lines t)) 1 = Some (lit "|:-|-:|") /\
  In 58%N (lit "|:-|-:|") /\ 58%N <> DASH /\ 58%N <> PIPE /\ is_whitespace 58 = false /\
  0 < sample_width 58 /\
  exists e, snd (format_table sample_width new t) = Err e.
Proof.
  intro t.
  assert (H1 : nth_error (filter (contains PIPE) (lines t)) 1 = Some (lit "|:-|-:|"))
    by (vm_compute; reflexivity).
  assert (H2 : In 58%N (lit "|:-|-:|")) by (right; left; reflexivity).
  assert (H3 : 58%N <> DASH) by (unfold DASH; discriminate).
  assert (H4 : 58%N <> PIPE) by (unfold PIPE; discriminate).
  assert (H5 : is_whitespace 58 = false) by reflexivity.
  assert (H6 : 0 < sample_width 58) by (vm_compute; lia).
  repeat (split; [assumption|]).
  exact (format_table_separator_rejects sample_width new t _ 58 H1 H2 H3 H4 H5 H6).
Defined.

(** ** What [format_document] keeps *)

Lemma count_pos_contains (c : char) (s : str) : 0 < count_char c s -> contains c s = true.
Proof.
  intro H. destruct (contains c s) eqn:E; [reflexivity|].
  rewrite count_char_notin in H; [lia|]. intro Hi. apply contains_In in Hi. congruence.
Qed.

Lemma render_lines_pipe_end (C : list (list str)) :
  Forall (fun l => exists pre, l = pre ++ [PIPE]) (render_lines C).
Proof.
  assert (Row : forall sp r, exists pre, [PIPE; sp] ++ join [sp; PIPE; sp] r ++ [sp; PIPE] = pre ++ [PIPE]).
  { intros sp r. exists ([PIPE; sp] ++ join [sp; PIPE; sp] r ++ [sp]).
    rewrite <- !app_assoc. reflexivity. }
  destruct C as [|r0 [|r1 rest]]; cbn [render_lines]; [constructor|constructor|].
  constructor; [apply Row|]. constructor; [apply Row|].
  apply Forall_map, Forall_forall. intros r _. apply Row.
Qed.

Lemma format_table_ok_unlines (cw : char -> nat) (st st' : TableFormatter) (t out : str) :
  format_table cw st t = (st', Ok out) ->
  exists ls, out = unlines ls /\ ls <> [] /\
    Forall (fun l => ~ In LF l /\ contains PIPE l = true /\ exists pre, l = pre ++ [PIPE]) ls.
Proof.
  intro H. destruct (format_table_ok_renderable _ _ _ _ _ H) as [-> R].
  destruct st' as [C W]. cbn [cells column_widths] in *.
  destruct (render_lines_props C _ R) as [P Lr].
  pose proof (render_lines_pipe_end C) as Pe.
  exists (render_lines C). split; [apply render_output_lines; destruct R; assumption|].
  split.
  - intro E. rewrite E in Lr. destruct R as (L & _). cbn [length] in Lr. lia.
  - rewrite Forall_forall in P, Pe |- *. intros l Hl.
    destruct (P l Hl) as (H1 & _ & H3). split; [exact H1|]. split; [|exact (Pe l Hl)].
    apply count_pos_contains. lia.
Qed.

Lemma try_format_ok (cw : char -> nat) (self s' : TableFormatter) (rest : list str) (n : nat)
    (f : str) :
  try_format_table_at cw self rest = Some (s', Some (n, f)) ->
  format_table cw self (join [LF] (take_while (contains PIPE) rest)) = (s', Ok f)
  /\ n = length (take_while (contains PIPE) rest).
Proof.
  unfold try_format_table_at. destruct (take_while (contains PIPE) rest) as [|b bs]; [discriminate|].
  destruct (format_table cw self (join [LF] (b :: bs))) as [s o] eqn:E.
  destruct o; try discriminate. intro H. injection H as <- <- <-. split; reflexivity.
Qed.

Lemma take_while_Forall {A} (p : A -> bool) (l : list A) : Forall (fun x => p x = true) (take_while p l).
Proof.
  induction l as [|x l IH]; simpl; [constructor|]. destruct (p x) eqn:E; [constructor; auto|constructor].
Qed.

Lemma firstn_take_while {A} (p : A -> bool) (l : list A) :
  firstn (length (take_while p l)) l = take_while p l.
Proof.
  induction l as [|x l IH]; simpl; [reflexivity|]. destruct (p x); simpl; [now rewrite IH|reflexivity].
Qed.

Lemma unlines_app (a b : list str) : unlines (a ++ b) = unlines a ++ unlines b.
Proof. unfold unlines. rewrite map_app, concat_app. reflexivity. Qed.

Lemma last_cons {A} (a : A) (l : list A) (d : A) : l <> [] -> last (a :: l) d = last l d.
Proof. destruct l; [contradiction|reflexivity]. Qed.

Lemma last_app_r {A} (l1 l2 : list A) (d : A) : l2 <> [] -> last (l1 ++ l2) d = last l2 d.
Proof.
  intro H. induction l1 as [|a l1 IH]; [reflexivity|].
  rewrite <- app_comm_cons, last_cons; [exact IH|]. destruct l1, l2; try discriminate; contradiction.
Qed.

Lemma last_in {A} (l : list A) (d : A) : l <> [] -> In (last l d) l.
Proof.
  intro H. destruct (exists_last H) as (l0 & a & ->). rewrite last_last.
  apply in_or_app. right. now left.
Qed.

Lemma unlines_nil (ls : list str) : unlines ls = [] -> ls = [].
Proof. destruct ls as [|l ls]; [reflexivity|]. unfold unlines. cbn. destruct l; discriminate. Qed.

Lemma scan_lines (cw : char -> nat) (fuel : nat) (self : TableFormatter) (rest : list str)
    (o : str) :
  length rest <= fuel -> Forall (fun l => ~ In LF l) rest -> scan cw fuel self rest = Some o ->
  exists ols, o = unlines ols /\ Forall (fun l => ~ In LF l) ols
    /\ filter (fun l => negb (contains PIPE l)) ols = filter (fun l => negb (contains PIPE l)) rest
    /\ (rest = [] -> ols = [])
    /\ (rest <> [] -> ols <> [] /\
          (last ols [] = last rest [] \/ exists pre, last ols [] = pre ++ [PIPE])).
Proof.
  revert self rest o. induction fuel as [|fuel IH]; intros self rest o Hf Hl H.
  - destruct rest; cbn [length] in Hf; [|lia]. injection H as <-.
    exists []. repeat split; auto; contradiction.
  - destruct rest as [|line tl].
    { injection H as <-. exists []. repeat split; auto; contradiction. }
    cbn [length] in Hf. apply Forall_cons_iff in Hl as [Hline Htl].
    assert (V : forall s, match scan cw fuel s tl with
                          | None => None | Some out => Some (line ++ [LF] ++ out) end = Some o ->
            exists ols, o = unlines ols /\ Forall (fun l => ~ In LF l) ols
              /\ filter (fun l => negb (contains PIPE l)) ols
                 = filter (fun l => negb (contains PIPE l)) (line :: tl)
              /\ (line :: tl = [] -> ols = [])
              /\ (line :: tl <> [] -> ols <> [] /\
                    (last ols [] = last (line :: tl) []
                     \/ exists pre, last ols [] = pre ++ [PIPE]))).
    { intros s Hs. destruct (scan cw fuel s tl) as [o'|] eqn:E; [|discriminate].
      injection Hs as <-.
      destruct (IH s tl o' ltac:(lia) Htl E) as (ols & -> & F & Fi & N0 & N1).
      exists (line :: ols). split; [unfold unlines; cbn [map concat]; now rewrite <- app_assoc|].
      split; [constructor; assumption|]. split.
      { cbn [filter]. destruct (negb (contains PIPE line)); [now f_equal|exact Fi]. }
      split; [discriminate|]. intros _. split; [discriminate|].
      destruct tl as [|l' tl'].
      - rewrite (N0 eq_refl). left. reflexivity.
      - destruct (N1 ltac:(discriminate)) as [Ne [E1|E1]].
        + left. rewrite !last_cons by (try exact Ne; discriminate). exact E1.
        + right. rewrite last_cons by exact Ne. exact E1. }
    cbn [scan] in H. destruct (is_candidate line); [|exact (V self H)].
    destruct (try_format_table_at cw self (line :: tl)) as [[s [[n f]|]]|] eqn:T;
      [|exact (V s H)|discriminate].
    destruct (scan cw fuel s (skipn n (line :: tl))) as [o'|] eqn:E; [|discriminate].
    injection H as <-.
    pose proof (try_format_table_at_length cw self s _ n f T) as Ln. cbn [length] in Ln.
    destruct (try_format_ok cw self s _ n f T) as [Ft ->].
    set (block := take_while (contains PIPE) (line :: tl)) in *.
    assert (Split : line :: tl = block ++ skipn (length block) (line :: tl)).
    { rewrite <- (firstn_skipn (length block) (line :: tl)) at 1. unfold block.
      rewrite firstn_take_while. reflexivity. }
    assert (Hsk : Forall (fun l => ~ In LF l) (skipn (length block) (line :: tl))).
    { apply Forall_forall. intros x Hx. rewrite Forall_forall in Htl.
      assert (Hx' : In x (line :: tl)) by (rewrite Split; apply in_or_app; now right).
      destruct Hx' as [<-|Hx']; [exact Hline|exact (Htl x Hx')]. }
    destruct (IH s (skipn (length block) (line :: tl)) o' ltac:(rewrite length_skipn; cbn [length]; lia) Hsk E)
      as (ols & -> & F & Fi & N0 & N1).
    destruct (format_table_ok_unlines cw self s _ f Ft) as (ls & -> & Ne & P).
    exists (ls ++ ols). split; [symmetry; apply unlines_app|]. split.
    { apply Forall_app. split; [|exact F]. eapply Forall_impl; [|exact P]. intros l Hl'. apply Hl'. }
    split.
    { rewrite Split, !filter_app, Fi.
      rewrite (filter_none _ ls), (filter_none _ block); [reflexivity| |].
      - intros x Hx. pose proof (take_while_Forall (contains PIPE) (line :: tl)) as Tw.
        fold block in Tw. rewrite Forall_forall in Tw. now rewrite (Tw x Hx).
      - intros x Hx. rewrite Forall_forall in P. now destruct (P x Hx) as (_ & -> & _). }
    split; [discriminate|]. intros _.
    split; [destruct ls; [contradiction|discriminate]|].
    destruct (skipn (length block) (line :: tl)) as [|y ys] eqn:Es.
    + rewrite (N0 eq_refl), app_nil_r. right. rewrite Forall_forall in P.
      exact (proj2 (proj2 (P _ (last_in ls [] Ne)))).
    + destruct (N1 ltac:(discriminate)) as [Ne' [E1|E1]].
      * left. rewrite last_app_r by exact Ne'. rewrite E1, Split, last_app_r by discriminate.
        reflexivity.
      * right. rewrite last_app_r by exact Ne'. exact E1.
Qed.

Lemma lines_go_nonempty (acc s : str) : acc <> [] -> lines_go acc s <> [].
Proof.
  revert acc. induction s as [|c r IH]; intros acc H; cbn [lines_go].
  - destruct acc; [contradiction|discriminate].
  - destruct (c =? LF)%N; [discriminate|]. apply IH. discriminate.
Qed.

Lemma lines_nil (d : str) : lines d = [] -> d = [].
Proof.
  destruct d as [|c r]; [reflexivity|]. unfold lines. cbn [lines_go].
  destruct (c =? LF)%N; [discriminate|]. intro H. exfalso. revert H.
  apply lines_go_nonempty. discriminate.
Qed.

Lemma lines_go_last (acc s : str) :
  rev acc ++ s <> [] -> ends_with LF (rev acc ++ s) = false ->
  lines_go acc s <> [] /\ last (lines_go acc s) [] <> [].
Proof.
  revert acc. induction s as [|c r IH]; intros acc Hn He.
  - rewrite app_nil_r in Hn. destruct acc as [|a acc']; [contradiction|].
    cbn [lines_go]. split; [discriminate|]. exact Hn.
  - cbn [lines_go]. destruct (N.eqb_spec c LF) as [->|Ne].
    + destruct r as [|c' r'].
      * rewrite ends_with_app in He by discriminate. cbn in He. discriminate.
      * replace (rev acc ++ LF :: c' :: r') with ((rev acc ++ [LF]) ++ c' :: r') in He
          by (rewrite <- app_assoc; reflexivity).
        rewrite ends_with_app in He by discriminate.
        destruct (IH [] ltac:(discriminate) He) as [H1 H2].
        split; [discriminate|]. rewrite last_cons by exact H1. exact H2.
    + apply IH; cbn [rev]; rewrite <- app_assoc; assumption.
Qed.

(** X7: format_document ends its output with a newline exactly when the
    document ends with one. *)
Theorem format_document_trailing_newline (cw : char -> nat) (st : TableFormatter) (d : str) :
  exists o, format_document cw st d = Some o /\ ends_with LF o = ends_with LF d.
Proof.
  unfold format_document.
  pose proof (scan_some cw (length (lines d)) st (lines d)) as Hs.
  destruct (scan cw (length (lines d)) st (lines d)) as [o|] eqn:E; [|contradiction].
  assert (Hl : Forall (fun l => ~ In LF l) (lines d))
    by (apply Forall_forall; intros l Hl; exact (lines_no_lf d l Hl)).
  destruct (scan_lines cw _ st _ o (le_n _) Hl E) as (ols & -> & F & _ & N0 & N1).
  eexists. split; [reflexivity|].
  destruct (lines d) as [|l0 ls0] eqn:Ed.
  { rewrite (N0 eq_refl). apply lines_nil in Ed. subst d. reflexivity. }
  destruct (N1 ltac:(discriminate)) as [Ne Last]. rewrite <- Ed in Last.
  destruct (exists_last Ne) as (ols0 & a & Eo). rewrite Eo in Last |- *.
  rewrite last_last in Last.
  assert (Hend : unlines (ols0 ++ [a]) = (unlines ols0 ++ a) ++ [LF]).
  { rewrite unlines_app. unfold unlines at 2. cbn [map concat]. rewrite !app_nil_r, app_assoc.
    reflexivity. }
  rewrite Hend, (ends_with_app LF _ [LF]) by discriminate.
  replace (ends_with LF [LF]) with true by reflexivity. rewrite andb_true_r.
  destruct (ends_with LF d) eqn:Ld; cbn [negb]; [rewrite ends_with_app by discriminate;
                                                   reflexivity|].
  rewrite removelast_last.
  assert (Ha : exists p x, a = p ++ [x] /\ x <> LF).
  { destruct Last as [La|(pre & La)].
    - assert (Hd : d <> []) by (intro Z; subst d; discriminate).
      destruct (lines_go_last [] d Hd Ld) as [H1 H2]. fold (lines d) in H1, H2.
      rewrite <- La in H2. destruct (exists_last H2) as (p & x & ->).
      exists p, x. split; [reflexivity|]. intros ->.
      rewrite Forall_forall in F. apply (F (p ++ [LF])).
      + rewrite Eo. apply in_or_app. right. now left.
      + apply in_or_app. right. now left.
    - exists pre, PIPE. split; [exact La|]. unfold PIPE, LF. discriminate. }
  destruct Ha as (p & x & -> & Hx). rewrite app_assoc, ends_with_app by discriminate.
  cbn. now apply N.eqb_neq.
Qed.

(** X8: the output of format_document, before its last newline is dropped
    (when the document has none), is a sequence of lines, each followed by
    a newline; the ones without a pipe are exactly the document's lines
    without a pipe, in the same order. *)
Theorem format_document_plain_lines (cw : char -> nat) (st : TableFormatter) (d : str) :
  exists ols,
    Forall (fun l => ~ In LF l) ols
    /\ filter (fun l => negb (contains PIPE l)) ols = filter (fun l => negb (contains PIPE l)) (lines d)
    /\ format_document cw st d
       = Some (let o := unlines ols in
               if negb (ends_with LF d) && ends_with LF o then removelast o else o).
Proof.
  unfold format_document.
  pose proof (scan_some cw (length (lines d)) st (lines d)) as Hs.
  destruct (scan cw (length (lines d)) st (lines d)) as [o|] eqn:E; [|contradiction].
  assert (Hl : Forall (fun l => ~ In LF l) (lines d))
    by (apply Forall_forall; intros l Hl; exact (lines_no_lf d l Hl)).
  destruct (scan_lines cw _ st _ o (le_n _) Hl E) as (ols & -> & F & Fi & _).
  exists ols. split; [exact F|]. split; [exact Fi|]. reflexivity.
Qed.

(** ** Column widths, edge columns, missing cells, import *)

Lemma fold_max_list {A} (f : A -> nat) (l : list A) (a : nat) :
  fold_left (fun acc x => Nat.max acc (f x)) l a = Nat.max a (list_max (map f l)).
Proof.
  unfold list_max. revert a. induction l as [|x l IH]; intro a; simpl; [lia|]. rewrite IH. lia.
Qed.

(** X9: get_column_widths gives as many widths as the longest row has
    cells, and for each column the largest display width of the cells in
    that column (rows too short to reach the column counting as width 0). *)
Theorem get_column_widths_max (cw : char -> nat) (self : TableFormatter) :
  let W := column_widths (get_column_widths cw self) in
  length W = list_max (map (fun r => length r) (cells self)) /\
  forall j, nth j W 0 = list_max (map (fun r => width cw (nth j r [])) (cells self)).
Proof.
  cbv zeta. unfold get_column_widths. cbn [column_widths]. split.
  - exact (eq_trans (widths_of_length cw (cells self)) (fold_max_list _ _ 0)).
  - intro j. exact (eq_trans (widths_of_nth cw (cells self) j) (fold_max_list _ _ 0)).
Qed.

Lemma drop_head_shape (cw : char -> nat) (rows : list (list str)) (row : list str) :
  nth 0 (widths_of cw rows) 0 = 0 -> In row rows ->
  exists a, row = a ++ (match row with [] => [] | _ :: r => r end)
            /\ length a <= 1 /\ Forall (fun c => width cw c = 0) a.
Proof.
  intros H0 Hr. destruct row as [|c r].
  - exists []. repeat split; auto.
  - exists [c]. split; [reflexivity|]. split; [cbn; lia|]. constructor; [|constructor].
    pose proof (widths_of_cell_le cw rows (c :: r) 0 Hr) as Hle. cbn [nth] in Hle. lia.
Qed.

Lemma drop_last_shape (cw : char -> nat) (rows : list (list str)) (row : list str) :
  let W := widths_of cw rows in
  nth (length W - 1) W 0 = 0 -> In row rows ->
  exists b, row = (if length row =? length W then removelast row else row) ++ b
            /\ length b <= 1 /\ Forall (fun c => width cw c = 0) b.
Proof.
  intros W H0 Hr. destruct (length row =? length W) eqn:E.
  2: { exists []. rewrite app_nil_r. repeat split; auto. }
  apply Nat.eqb_eq in E.
  destruct row as [|c r] using rev_ind.
  - exists []. repeat split; auto.
  - clear IHr. exists [c]. rewrite removelast_last. split; [reflexivity|]. split; [cbn; lia|].
    constructor; [|constructor].
    pose proof (widths_of_cell_le cw rows (r ++ [c]) (length W - 1) Hr) as Hle. fold W in Hle.
    rewrite length_app in E. cbn [length] in E.
    replace (length W - 1) with (length r) in Hle, H0 by lia.
    rewrite app_nth2, Nat.sub_diag in Hle by lia. cbn [nth] in Hle. lia.
Qed.

Lemma remove_edges_shape (cw : char -> nat) (self : TableFormatter) :
  let self' := remove_empty_edge_columns cw self in
  length (cells self') = length (cells self) /\
  forall i row, nth_error (cells self) i = Some row ->
    exists a row' b, nth_error (cells self') i = Some row' /\ row = a ++ row' ++ b
      /\ length a <= 1 /\ length b <= 1 /\ Forall (fun c => width cw c = 0) (a ++ b).
Proof.
  cbv zeta. split; [apply remove_edges_length|]. intros i row Hi.
  unfold remove_empty_edge_columns, get_column_widths. cbn [cells column_widths].
  set (tl' := fun row : list str => match row with [] => [] | _ :: r => r end).
  set (dl := fun (n : nat) (row : list str) => if length row =? n then removelast row else row).
  assert (Last : forall rows i row, nth_error rows i = Some row ->
            nth (length (widths_of cw rows) - 1) (widths_of cw rows) 0 = 0 ->
            nth_error (map (dl (length (widths_of cw rows))) rows) i
            = Some (dl (length (widths_of cw rows)) row)
            /\ exists b, row = dl (length (widths_of cw rows)) row ++ b
                         /\ length b <= 1 /\ Forall (fun c => width cw c = 0) b).
  { intros rows i' row' Hi' H0. rewrite nth_error_map, Hi'. split; [reflexivity|].
    exact (drop_last_shape cw rows row' H0 (nth_error_In _ _ Hi')). }
  assert (Keep : exists a row' b, nth_error (cells self) i = Some row' /\ row = a ++ row' ++ b
                   /\ length a <= 1 /\ length b <= 1 /\ Forall (fun c => width cw c = 0) (a ++ b)).
  { exists [], row, []. rewrite app_nil_r. repeat split; rewrite ?app_nil_r; try assumption; try (cbn; lia); auto. }
  destruct (widths_of cw (cells self)) as [|w0 ws0] eqn:E0; [cbn [cells]; exact Keep|].
  destruct (w0 =? 0) eqn:Ew0; cbn [cells column_widths].
  - destruct (drop_head_shape cw (cells self) row ltac:(rewrite E0; now apply Nat.eqb_eq)
                (nth_error_In _ _ Hi)) as (a & Ea & La & Fa).
    assert (H1 : nth_error (map tl' (cells self)) i = Some (tl' row)) by (now rewrite nth_error_map, Hi).
    destruct (widths_of cw (map tl' (cells self))) as [|w1 ws1] eqn:E1;
      cbn [cells column_widths].
    { rewrite H1. exists a, (tl' row), []. rewrite app_nil_r. repeat split; rewrite ?app_nil_r; try assumption; try (cbn; lia); auto. }
    destruct (nth (length (w1 :: ws1) - 1) (w1 :: ws1) 0 =? 0) eqn:El; cbn [cells column_widths].
    + apply Nat.eqb_eq in El. rewrite <- E1 in El.
      destruct (Last _ _ _ H1 El) as [L1 (b & Eb & Lb & Fb)]. rewrite E1 in L1, Eb.
      exists a, (dl (length (w1 :: ws1)) (tl' row)), b.
      split; [exact L1|]. split; [rewrite <- Eb; exact Ea|].
      repeat split; rewrite ?app_nil_r; try assumption; try (cbn; lia); auto. apply Forall_app; auto.
    + rewrite H1. exists a, (tl' row), []. rewrite app_nil_r. repeat split; rewrite ?app_nil_r; try assumption; try (cbn; lia); auto.
  - destruct (nth (length (w0 :: ws0) - 1) (w0 :: ws0) 0 =? 0) eqn:El; cbn [cells column_widths].
    + apply Nat.eqb_eq in El. rewrite <- E0 in El.
      destruct (Last _ _ _ Hi El) as [L1 (b & Eb & Lb & Fb)]. rewrite E0 in L1, Eb.
      exists [], (dl (length (w0 :: ws0)) row), b.
      split; [exact L1|]. split; [exact Eb|]. repeat split; rewrite ?app_nil_r; try assumption; try (cbn; lia); auto.
    + exact Keep.
Qed.

(** X10: remove_empty_edge_columns keeps the number of rows, and turns
    each row into a contiguous part of it, dropping at most one cell at
    each end, and only cells of display width 0. *)
Theorem remove_empty_edge_columns_shape (cw : char -> nat) (self : TableFormatter) :
  let self' := remove_empty_edge_columns cw self in
  length (cells self') = length (cells self) /\
  forall i row, nth_error (cells self) i = Some row ->
    exists a row' b, nth_error (cells self') i = Some row' /\ row = a ++ row' ++ b
      /\ length a <= 1 /\ length b <= 1 /\ Forall (fun c => width cw c = 0) (a ++ b).
Proof. exact (remove_edges_shape cw self). Qed.

(** X11: after get_column_widths, add_missing_cell_columns gives every row
    exactly as many cells as there are column widths, and the widths
    computed again from the completed rows are the same. *)
Theorem add_missing_cell_columns_rect (cw : char -> nat) (self : TableFormatter) :
  let s2 := add_missing_cell_columns (get_column_widths cw self) in
  Forall (fun r => length r = length (column_widths s2)) (cells s2)
  /\ widths_of cw (cells s2) = column_widths s2.
Proof.
  cbv zeta. split; [apply add_missing_rect|]. apply add_missing_widths.
Qed.

(** X12: import_table, on a fresh formatter, fails with InvalidStructure
    ("No table rows found in input") exactly when no line of the input
    contains a pipe; otherwise it succeeds with one row per line that
    contains a pipe. *)
Theorem import_table_rows (cw : char -> nat) (t : str) :
  (snd (import_table cw new t) = Ok tt /\ filter (contains PIPE) (lines t) <> []
   /\ length (cells (fst (import_table cw new t))) = length (filter (contains PIPE) (lines t)))
  \/ (snd (import_table cw new t) = Err (InvalidStructure "No table rows found in input")
      /\ filter (contains PIPE) (lines t) = []).
Proof.
  destruct (import_table cw new t) as [st1 o] eqn:I.
  destruct (import_table_result cw new t) as [E|[E (l & Hl & Hp)]];
    rewrite I in E; cbn [snd] in E; subst o.
  - right. split; [reflexivity|]. exact (import_no_pipe cw t st1 _ I).
  - left. split; [reflexivity|]. split; [|exact (import_rows cw t st1 tt I)].
    intro Z. assert (Hf : In l (filter (contains PIPE) (lines t))) by (apply filter_In; auto).
    rewrite Z in Hf. exact Hf.
Qed.

(** X13: every cell import_table produces (on a fresh formatter) is
    trimmed and holds no pipe and no newline, and the column widths it
    leaves are those of its cells. *)
Theorem import_table_cells (cw : char -> nat) (t : str) :
  let st1 := fst (import_table cw new t) in
  Forall (Forall (fun c => trim c = c /\ ~ In PIPE c /\ ~ In LF c)) (cells st1)
  /\ column_widths st1 = widths_of cw (cells st1).
Proof.
  cbv zeta. destruct (import_table cw new t) as [st1 o] eqn:I.
  destruct (import_table_result cw new t) as [E|[E _]]; rewrite I in E; cbn [snd] in E; subst o.
  - unfold import_table in I. destruct (skip_while _ (lines t)); [|discriminate].
    injection I as <-. split; [constructor|reflexivity].
  - destruct (import_table_ok cw t st1 tt I) as [Cl Wd]. cbn [fst]. split; [|exact Wd].
    pose proof (import_trimmed cw t st1 tt I) as Tr.
    rewrite Forall_forall in Cl, Tr |- *. intros r Hr.
    specialize (Cl r Hr). specialize (Tr r Hr). rewrite Forall_forall in Cl, Tr |- *.
    intros c Hc. destruct (Cl c Hc). auto.
Qed.

(** X14: on a document whose lines all contain a pipe, the first being a
    table candidate, format_document returns what format_table returns on
    those lines joined by newlines, without its final newline when the
    document has none. *)
Theorem format_document_single_table (cw : char -> nat) (st st' : TableFormatter) (d l : str)
    (ls : list str) (out : str) :
  lines d = l :: ls -> is_candidate l = true ->
  Forall (fun x => contains PIPE x = true) (l :: ls) ->
  format_table cw st (join [LF] (l :: ls)) = (st', Ok out) ->
  format_document cw st d = Some (if ends_with LF d then out else removelast out).
Proof.
  intros Hd Hc Hp Ht. unfold format_document. rewrite Hd.
  assert (Tw : take_while (contains PIPE) (l :: ls) = l :: ls).
  { clear -Hp. induction Hp as [|x r Hx _ IH]; [reflexivity|]. cbn. now rewrite Hx, IH. }
  cbn [length scan]. rewrite Hc. unfold try_format_table_at. rewrite Tw, Ht.
  rewrite skipn_all2 by lia. destruct ls; cbn [scan length]; rewrite app_nil_r;
  destruct (format_table_ok_unlines cw st st' _ out Ht) as (ols & -> & Ne & _);
  destruct (exists_last Ne) as (ols0 & a & ->);
  (replace (ends_with LF (unlines (ols0 ++ [a]))) with true
     by (rewrite unlines_app; unfold unlines at 2; cbn [map concat]; rewrite app_nil_r, app_assoc;
         symmetry; rewrite ends_with_app by discriminate; reflexivity));
  rewrite andb_true_r; destruct (ends_with LF d); reflexivity.
Qed.

Lemma format_document_single_table_witness :
  let ls := lines sample_table in
  let st' := fst (format_table sample_width new (join [LF] ls)) in
  let out := render_output st' in
  lines sample_table = hd [] ls :: tl ls /\ is_candidate (hd [] ls) = true /\
  Forall (fun x => contains PIPE x = true) (hd [] ls :: tl ls) /\
  format_table sample_width new (join [LF] (hd [] ls :: tl ls)) = (st', Ok out) /\
  format_document sample_width new sample_table
  = Some (if ends_with LF sample_table then out else removelast out).
Proof.
  intros ls st' out.
  assert (H1 : lines sample_table = hd [] ls :: tl ls) by (vm_compute; reflexivity).
  assert (H2 : is_candidate (hd [] ls) = true) by (vm_compute; reflexivity).
  assert (H3 : Forall (fun x => contains PIPE x = true) (hd [] ls :: tl ls))
    by (vm_compute; repeat constructor).
  assert (H4 : format_table sample_width new (join [LF] (hd [] ls :: tl ls)) = (st', Ok out))
    by (vm_compute; reflexivity).
  split; [exact H1|]. split; [exact H2|]. split; [exact H3|]. split; [exact H4|].
  exact (format_document_single_table sample_width new st' sample_table _ _ out H1 H2 H3 H4).
Defined.

(** ** Re-feeding the output: the columns of positive width *)

Lemma parse_cell_sep_dash (p c : str) :
  parse_cell 1 p = c -> c <> [] -> Forall (fun x => x = DASH) c -> c = [DASH].
Proof.
  unfold parse_cell. cbn [Nat.eqb andb].
  destruct (forallb (N.eqb DASH) (trim p) && negb (is_empty (trim p))) eqn:E; [easy|].
  intros <- Ne D. exfalso.
  assert (F : forallb (N.eqb DASH) (trim p) = true).
  { apply forallb_forall. intros x Hx. rewrite Forall_forall in D. rewrite (D x Hx). apply N.eqb_refl. }
  rewrite F in E. destruct (trim p); [contradiction|discriminate].
Qed.

Lemma import_sep_dash (cw : char -> nat) (t : str) (st1 : TableFormatter) (u : unit) :
  import_table cw new t = (st1, Ok u) ->
  (forall l, nth_error (skip_while (fun line => negb (contains PIPE line)) (lines t)) 1 = Some l ->
             contains PIPE l = true) ->
  is_separator_row st1 1 = true ->
  forall r1, nth_error (cells st1) 1 = Some r1 -> Forall (fun c => c = [DASH]) r1.
Proof.
  intros I Hs Sep r1 E1.
  destruct (is_separator_row_spec st1 Sep) as (r1' & E1' & _ & D).
  rewrite E1 in E1'. injection E1' as <-.
  pose proof (import_cells cw t st1 u I) as Ec.
  assert (Lt : 1 < length (cells st1)) by (apply nth_error_Some; rewrite E1; discriminate).
  rewrite Ec, remove_edges_length in Lt. rewrite Ec in E1. cbn [cells] in Lt.
  destruct (skip_while (fun line => negb (contains PIPE line)) (lines t))
    as [|l0 [|l1 rest]] eqn:ESW.
  - cbn in Lt. lia.
  - cbn [parse_rows] in Lt. destruct (negb (contains PIPE l0)); cbn in Lt; lia.
  - pose proof (Hs l1 eq_refl) as P1.
    destruct (skip_while_cons _ _ _ _ ESW) as [_ P0]. apply negb_false_iff in P0.
    cbn [parse_rows] in E1. rewrite P0, P1 in E1. cbn [negb] in E1.
    destruct (remove_edges_shape cw
                (mkFormatter (map (parse_cell 0) (split PIPE l0)
                              :: map (parse_cell 1) (split PIPE l1) :: parse_rows 2 rest) []))
      as [_ Sh].
    destruct (Sh 1 (map (parse_cell 1) (split PIPE l1)) eq_refl) as (a & row' & b & Er & Eab & _).
    rewrite E1 in Er. injection Er as <-.
    apply Forall_forall. intros c Hc. rewrite Forall_forall in D. destruct (D c Hc) as [Ne Dc].
    assert (Hin : In c (map (parse_cell 1) (split PIPE l1)))
      by (rewrite Eab; apply in_or_app; right; apply in_or_app; left; exact Hc).
    apply in_map_iff in Hin as (p & Ep & _). exact (parse_cell_sep_dash p c Ep Ne Dc).
Qed.

Lemma width_dash (cw : char -> nat) : cw DASH = 1 -> width cw [DASH] = 1.
Proof. intro H. cbn. lia. Qed.

Lemma widths_row1_dash (cw : char -> nat) (HD : cw DASH = 1) (a0 a1 : list str)
    (rest : list (list str)) :
  Forall (fun c => c = [DASH] \/ c = []) a1 ->
  (forall j, j < length a1 -> 1 <= nth j (widths_of cw (a0 :: a1 :: rest)) 0) ->
  widths_of cw (a0 :: map (fun _ => [DASH]) a1 :: rest) = widths_of cw (a0 :: a1 :: rest).
Proof.
  intros Ha Hw. apply nth_ext with (d := 0) (d' := 0).
  - rewrite !widths_of_length, !(fold_max_list (@length str)).
    unfold list_max. cbn [map fold_right]. rewrite length_map. reflexivity.
  - intros j _.
    assert (Fm : forall rows, nth j (widths_of cw rows) 0
                  = Nat.max 0 (list_max (map (fun r => width cw (nth j r [])) rows))).
    { intro rows. rewrite widths_of_nth.
      pose proof (fold_max_list (fun r => width cw (nth j r [])) rows 0) as F.
      cbv beta in F. exact F. }
    rewrite !Fm. unfold list_max. cbn [map fold_right].
    destruct (Nat.lt_ge_cases j (length a1)) as [Lt|Ge].
    + specialize (Hw j Lt). rewrite Fm in Hw. unfold list_max in Hw. cbn [map fold_right] in Hw.
      assert (Y : nth j (map (fun _ : str => [DASH]) a1) [] = [DASH]).
      { rewrite nth_indep with (d' := (fun _ : str => [DASH]) []) by (rewrite length_map; exact Lt).
        exact (map_nth (fun _ : str => [DASH]) a1 [] j). }
      rewrite Y, width_dash by exact HD.
      assert (X : width cw (nth j a1 []) <= 1).
      { rewrite Forall_forall in Ha. destruct (Ha _ (nth_In a1 [] Lt)) as [-> | ->];
          [rewrite width_dash by exact HD|cbn]; lia. }
      lia.
    + rewrite (nth_overflow a1), (nth_overflow (map (fun _ : str => [DASH]) a1))
        by (try rewrite length_map; lia). reflexivity.
Qed.

Lemma padded_row_dash_cells (cw : char -> nat) (HD : cw DASH = 1) (W : list nat) (col : nat)
    (row : list str) :
  Forall (fun c => c = [DASH] \/ c = []) row ->
  (forall j, col <= j < col + length row -> 1 <= nth j W 0) ->
  padded_row cw W DASH col (map (fun _ => [DASH]) row) = padded_row cw W DASH col row.
Proof.
  intros H. revert col. induction H as [|c row Hc _ IH]; intros col Hw; [reflexivity|].
  cbn [map padded_row]. rewrite IH by (intros j Hj; apply Hw; cbn [length]; lia).
  f_equal. rewrite width_dash by exact HD.
  destruct Hc as [-> | ->]; [rewrite width_dash by exact HD; reflexivity|].
  specialize (Hw col ltac:(cbn [length]; lia)). cbn [width fold_right app].
  destruct (nth col W 0) as [|w]; [lia|]. cbn. rewrite ?Nat.sub_0_r. reflexivity.
Qed.

Lemma refeed_cells (cw : char -> nat) (HD : cw DASH = 1) (C1 : list (list str)) :
  let W := widths_of cw C1 in
  2 <= length C1 -> Forall (Forall (fun c => trim c = c)) C1 ->
  (forall r1, nth_error C1 1 = Some r1 -> Forall (fun c => c = [DASH]) r1) ->
  Forall (fun w => 0 < w) W ->
  let A := map (fun row => row ++ repeat [] (length W - length row)) C1 in
  let C := padded_rows cw W 0 A in
  widths_of cw (normalize C) = W /\ padded_rows cw W 0 (normalize C) = C.
Proof.
  intros W L Tr D Pos A C.
  assert (AW : widths_of cw A = W) by exact (add_missing_widths cw (mkFormatter C1 [])).
  assert (EC : exists r0 r1 rest, C1 = r0 :: r1 :: rest)
    by (destruct C1 as [|r0 [|r1 rest]]; cbn [length] in L; try lia; eauto).
  destruct EC as (r0 & r1 & rest & EC1).
  set (a0 := r0 ++ repeat [] (length W - length r0)).
  set (a1 := r1 ++ repeat [] (length W - length r1)).
  set (arest := map (fun row => row ++ repeat [] (length W - length row)) rest).
  assert (EA : A = a0 :: a1 :: arest) by (unfold A; rewrite EC1; reflexivity).
  assert (TrA : Forall (Forall (fun c => trim c = c)) A).
  { unfold A. apply Forall_map. eapply Forall_impl; [|exact Tr]. intros r Hr.
    apply Forall_app. split; [exact Hr|]. apply Forall_forall. intros c Hc.
    apply repeat_spec in Hc. subst c. reflexivity. }
  rewrite EA in TrA. apply Forall_cons_iff in TrA as [T0 TrA].
  apply Forall_cons_iff in TrA as [_ Trest].
  assert (Ha1 : Forall (fun c => c = [DASH] \/ c = []) a1).
  { unfold a1. apply Forall_app. split.
    - eapply Forall_impl; [|exact (D r1 ltac:(rewrite EC1; reflexivity))]. intros c Hc. left. exact Hc.
    - apply Forall_forall. intros c Hc. apply repeat_spec in Hc. right. exact Hc. }
  assert (La1 : length a1 = length W).
  { unfold a1. rewrite length_app, repeat_length.
    pose proof (widths_of_row_le cw C1 r1 ltac:(rewrite EC1; right; left; reflexivity)). fold W in H.
    lia. }
  assert (Hw1 : forall j, j < length a1 -> 1 <= nth j W 0).
  { intros j Hj. rewrite La1 in Hj. rewrite Forall_forall in Pos.
    exact (Pos _ (nth_In W 0 Hj)). }
  assert (N : normalize C = a0 :: map (fun _ => [DASH]) a1 :: arest).
  { unfold C. rewrite EA. cbn [padded_rows]. change (pad_char 0) with SPACE.
    change (pad_char 1) with DASH. unfold normalize. f_equal.
    - exact (trim_padded_trimmed cw W a0 T0).
    - f_equal.
      + apply map_const_length. rewrite length_padded_row. reflexivity.
      + assert (Ar : arest = map (map trim) arest).
        { transitivity (map (fun r => r) arest); [symmetry; apply map_id|].
          apply map_ext_in. intros r Hr. rewrite Forall_forall in Trest.
          specialize (Trest r Hr). transitivity (map (fun c => c) r); [symmetry; apply map_id|].
          apply map_ext_in. intros c Hc. rewrite Forall_forall in Trest. symmetry. exact (Trest c Hc). }
        rewrite Ar at 1. rewrite trim_padded_rows by lia. symmetry. exact Ar. }
  rewrite N. split.
  - rewrite widths_row1_dash by (try exact HD; try exact Ha1; rewrite <- EA, AW; exact Hw1).
    rewrite <- EA. exact AW.
  - unfold C. rewrite EA. cbn [padded_rows]. change (pad_char 1) with DASH.
    rewrite padded_row_dash_cells by (try exact HD; try exact Ha1; intros j Hj; apply Hw1; lia).
    reflexivity.
Qed.

(** An input with a line without '|' between the header and the
    separator: [row_i] counts that line, so the separator cells are not
    collapsed to ["-"] on the first run; they are on the second, and the
    column narrows. *)
Lemma format_table_refeed_blank_line :
  snd (format_table sample_width new (text ["| a |"; ""; "|---|"]))
    = Ok (text ["| a   |"; "|-----|"; ""])
  /\ snd (format_table sample_width new (text ["| a   |"; "|-----|"; ""]))
    = Ok (text ["| a |"; "|---|"; ""]).
Proof. split; vm_compute; reflexivity. Qed.

(** C3 (amended): on an input on which format_table succeeds, in which the
    line right after the first line containing '|' contains '|' as well,
    and whose result has no column of width 0, feeding the output back
    into format_table succeeds and gives the same text (and the same
    formatter state), when '-' has display width 1. *)
Theorem format_table_refeed_idempotent (cw : char -> nat) (HD : cw DASH = 1)
    (st st' : TableFormatter) (t o1 : str) :
  format_table cw st t = (st', Ok o1) ->
  (forall l, nth_error (skip_while (fun line => negb (contains PIPE line)) (lines t)) 1 = Some l ->
             contains PIPE l = true) ->
  Forall (fun w => 0 < w) (column_widths st') ->
  format_table cw st o1 = (st', Ok o1).
Proof.
  intros H Hs Pos.
  destruct (format_table_ok_inv _ _ _ _ _ H) as (st1 & u & I & L & _ & Sep & Est & Eo).
  destruct (format_table_ok_renderable _ _ _ _ _ H) as [_ R].
  pose proof (refeed_cells cw HD (cells st1) L (import_trimmed cw t st1 u I)
                (import_sep_dash cw t st1 u I Hs Sep)) as RC.
  set (W := widths_of cw (cells st1)).
  set (C := padded_rows cw W 0 (map (fun row => row ++ repeat [] (length W - length row)) (cells st1))).
  assert (Est' : st' = mkFormatter C W) by exact Est.
  clear Est. subst st' o1. cbn [cells column_widths] in Pos, R.
  assert (RC' : widths_of cw (normalize C) = W /\ padded_rows cw W 0 (normalize C) = C)
    by exact (RC Pos).
  destruct RC' as [RW RP].
  pose proof (reformat cw st C _ W R) as F. cbv zeta in F.
  rewrite RW, RP in F. exact F.
Qed.

Lemma format_table_refeed_idempotent_witness :
  let st' := fst (format_table sample_width new sample_table) in
  let o1 := render_output st' in
  sample_width DASH = 1 /\
  format_table sample_width new sample_table = (st', Ok o1) /\
  (forall l, nth_error (skip_while (fun line => negb (contains PIPE line)) (lines sample_table)) 1
             = Some l -> contains PIPE l = true) /\
  Forall (fun w => 0 < w) (column_widths st') /\
  format_table sample_width new o1 = (st', Ok o1).
Proof.
  intros st' o1.
  assert (HD : sample_width DASH = 1) by reflexivity.
  assert (E : format_table sample_width new sample_table = (st', Ok o1)) by (vm_compute; reflexivity).
  assert (Hs : forall l, nth_error (skip_while (fun line => negb (contains PIPE line))
                                               (lines sample_table)) 1 = Some l ->
                         contains PIPE l = true)
    by (intros l Hl; vm_compute in Hl; injection Hl as <-; reflexivity).
  assert (Pos : Forall (fun w => 0 < w) (column_widths st'))
    by (vm_compute; repeat constructor).
  split; [exact HD|]. split; [exact E|]. split; [exact Hs|]. split; [exact Pos|].
  exact (format_table_refeed_idempotent sample_width HD new st' sample_table o1 E Hs Pos).
Defined.
